(** * PVfit: single-diode equation (SDE) simulation

    A shallow embedding of
    [pvfit/modeling/dc/common.py] (the scaled thermal voltage) and of
    [pvfit/modeling/dc/single_diode/equation/simulation.py] (the solver
    wrappers and the derived curve parameters), with the properties that the
    specification states about them.

    Numbers.  A Python/numpy [float64] is modelled by [float]: an exact real
    number, or one of the three special values [+inf], [-inf] and [nan].
    Rounding, overflow and the sign of zero are not represented; the rules for
    the special values are those of IEEE-754 as numpy applies them under its
    default error state (a warning, never an exception).

    Arrays.  A numpy array is modelled up to rank one: [Arr0 x] has shape
    [()] (this is also how a Python scalar takes part in array arithmetic) and
    [Arr1 xs] has shape [(length xs,)].  Binary operations broadcast as numpy
    does and raise [ValueError] on incompatible shapes.

    Effects.  Every function of [simulation.py] receives the dictionary
    [model_parameters]; it is the state of the monad [M], read with
    [model_parameters[key]].  Exceptions are the [Raise] results.

    The solver [scipy.optimize.newton] is not part of the repository: it is a
    parameter of the development. *)

From Stdlib Require Import String Reals Lra Lia Bool Arith List.
Import ListNotations.

Set Implicit Arguments.

(* ================================================================== *)
(** * Idealised IEEE-754 numbers *)
(* ================================================================== *)

Inductive float : Type :=
| Fin (r : R)
| PInf
| NInf
| NaN.

(** The comparison of a real number with zero. *)
Definition Rsign (r : R) : comparison :=
  match total_order_T r 0 with
  | inleft (left _) => Lt
  | inleft (right _) => Eq
  | inright _ => Gt
  end.

Definition is_finite (x : float) : bool :=
  match x with Fin _ => true | _ => false end.

Definition fneg (x : float) : float :=
  match x with
  | Fin r => Fin (- r)
  | PInf => NInf
  | NInf => PInf
  | NaN => NaN
  end.

Definition fadd (x y : float) : float :=
  match x, y with
  | Fin a, Fin b => Fin (a + b)
  | NaN, _ | _, NaN => NaN
  | PInf, NInf | NInf, PInf => NaN
  | PInf, _ | _, PInf => PInf
  | NInf, _ | _, NInf => NInf
  end.

Definition fsub (x y : float) : float := fadd x (fneg y).

(** An infinity of sign [pos] multiplied by a finite number whose comparison
    with zero is [c]. *)
Definition inf_times (pos : bool) (c : comparison) : float :=
  match c with
  | Eq => NaN
  | Gt => if pos then PInf else NInf
  | Lt => if pos then NInf else PInf
  end.

Definition fmul (x y : float) : float :=
  match x, y with
  | Fin a, Fin b => Fin (a * b)
  | NaN, _ | _, NaN => NaN
  | Fin a, PInf | PInf, Fin a => inf_times true (Rsign a)
  | Fin a, NInf | NInf, Fin a => inf_times false (Rsign a)
  | PInf, PInf | NInf, NInf => PInf
  | PInf, NInf | NInf, PInf => NInf
  end.

Definition fdiv (x y : float) : float :=
  match x, y with
  | NaN, _ | _, NaN => NaN
  | Fin a, Fin b =>
      match Rsign b with
      | Eq => match Rsign a with Eq => NaN | Gt => PInf | Lt => NInf end
      | _ => Fin (a / b)
      end
  | Fin _, PInf | Fin _, NInf => Fin 0
  | PInf, Fin b => match Rsign b with Lt => NInf | _ => PInf end
  | NInf, Fin b => match Rsign b with Lt => PInf | _ => NInf end
  | _, _ => NaN
  end.

(** [numpy.exp], [numpy.expm1] and [numpy.log]. *)
Definition fexp (x : float) : float :=
  match x with
  | Fin r => Fin (exp r)
  | PInf => PInf
  | NInf => Fin 0
  | NaN => NaN
  end.

Definition fexpm1 (x : float) : float :=
  match x with
  | Fin r => Fin (exp r - 1)
  | PInf => PInf
  | NInf => Fin (-1)
  | NaN => NaN
  end.

Definition flog (x : float) : float :=
  match x with
  | Fin r =>
      match Rsign r with
      | Gt => Fin (ln r)
      | Eq => NInf
      | Lt => NaN
      end
  | PInf => PInf
  | NInf => NaN
  | NaN => NaN
  end.

(** [x ** 2]. *)
Definition fsquare (x : float) : float := fmul x x.

(** [x != 0]: true for [nan] and for the infinities. *)
Definition fnonzero (x : float) : bool :=
  match x with
  | Fin r => match Rsign r with Eq => false | _ => true end
  | _ => true
  end.

(* ================================================================== *)
(** * Exceptions *)
(* ================================================================== *)

(** [AssertionError] is what [numpy.testing.assert_equal(converged, True)]
    raises: the convergence failure of the specification. *)
Inductive exn : Type :=
| AssertionError
| AttributeError
| KeyError
| RuntimeError
| ValueError.

Inductive result (A : Type) : Type :=
| Ok (a : A)
| Raise (e : exn).

Arguments Raise {A} e.

Definition rbind {A B} (r : result A) (k : A -> result B) : result B :=
  match r with
  | Ok a => k a
  | Raise e => Raise e
  end.


(* ================================================================== *)
(** * numpy arrays of rank at most one *)
(* ================================================================== *)

Inductive ndarray (A : Type) : Type :=
| Arr0 (x : A)
| Arr1 (xs : list A).

(** [None] is the shape [()], [Some k] the shape [(k,)]. *)
Definition shape : Type := option nat.

Definition shape_of {A} (a : ndarray A) : shape :=
  match a with
  | Arr0 _ => None
  | Arr1 xs => Some (length xs)
  end.

(** The truth value of [a.shape]: an empty tuple is false. *)
Definition shape_truthy (s : shape) : bool :=
  match s with None => false | Some _ => true end.

Definition elements {A} (a : ndarray A) : list A :=
  match a with
  | Arr0 x => [x]
  | Arr1 xs => xs
  end.

Definition size {A} (a : ndarray A) : nat := length (elements a).

Definition nd_map {A B} (f : A -> B) (a : ndarray A) : ndarray B :=
  match a with
  | Arr0 x => Arr0 (f x)
  | Arr1 xs => Arr1 (map f xs)
  end.

(** numpy's broadcasting rule for two shapes. *)
Definition broadcast_shape (s t : shape) : option shape :=
  match s, t with
  | None, _ => Some t
  | _, None => Some s
  | Some m, Some k =>
      if Nat.eqb m k then Some (Some m)
      else if Nat.eqb m 1 then Some (Some k)
      else if Nat.eqb k 1 then Some (Some m)
      else None
  end.

(** [numpy.broadcast_to(a, s)], for a shape [s] that [a] broadcasts to. *)
Definition broadcast_to {A} (s : shape) (a : ndarray A) : ndarray A :=
  match a, s with
  | Arr0 x, None => Arr0 x
  | Arr0 x, Some k => Arr1 (repeat x k)
  | Arr1 [x], Some k => Arr1 (repeat x k)
  | Arr1 xs, _ => Arr1 xs
  end.

Definition map2 {A B C} (f : A -> B -> C) (xs : list A) (ys : list B) : list C :=
  map (fun p => f (fst p) (snd p)) (combine xs ys).

(** Element-wise combination of two arrays of one shape. *)
Definition zip_with {A B C} (f : A -> B -> C) (a : ndarray A) (b : ndarray B)
  : ndarray C :=
  match a, b with
  | Arr0 x, Arr0 y => Arr0 (f x y)
  | Arr1 xs, Arr1 ys => Arr1 (map2 f xs ys)
  | Arr0 x, Arr1 ys => Arr1 (map (f x) ys)
  | Arr1 xs, Arr0 y => Arr1 (map (fun x => f x y) xs)
  end.

(** A binary ufunc: broadcast both operands to the common shape, then
    combine element-wise. *)
Definition broadcast2 {A B C} (f : A -> B -> C) (a : ndarray A) (b : ndarray B)
  : result (ndarray C) :=
  match broadcast_shape (shape_of a) (shape_of b) with
  | None => Raise ValueError
  | Some s => Ok (zip_with f (broadcast_to s a) (broadcast_to s b))
  end.

(** The common shape of a list of arrays. *)
Definition common_shape {A} (l : list (ndarray A)) : option shape :=
  fold_left
    (fun acc a =>
       match acc with
       | Some s => broadcast_shape s (shape_of a)
       | None => None
       end)
    l (Some None).

(** [numpy.broadcast_arrays] over the arrays of [l]. *)
Definition broadcast_arrays {A} (l : list (ndarray A)) : result (list (ndarray A)) :=
  match common_shape l with
  | None => Raise ValueError
  | Some s => Ok (map (broadcast_to s) l)
  end.

(** The element of [a] that broadcasting places at position [i]: a scalar and
    a one-element array give their element at every position. *)
Definition bitem {A} (a : ndarray A) (i : nat) : option A :=
  match a with
  | Arr0 x => Some x
  | Arr1 xs => if Nat.eqb (length xs) 1 then hd_error xs else nth_error xs i
  end.

Definition olift2 {A B C} (f : A -> B -> C) (x : option A) (y : option B)
  : option C :=
  match x, y with
  | Some a, Some b => Some (f a b)
  | _, _ => None
  end.

(** [numpy.where(c, x, y)]. *)
Definition numpy_where {A} (c : ndarray bool) (x y : ndarray A)
  : result (ndarray A) :=
  rbind (broadcast2 pair c x)
        (fun cx => broadcast2 (fun (p : bool * A) w => if fst p then snd p else w) cx y).

(** [numpy.testing.assert_equal(a, True)] for an array of booleans. *)
Definition assert_all_true (a : ndarray bool) : result unit :=
  if forallb (fun b => b) (elements a) then Ok tt else Raise AssertionError.

(* ================================================================== *)
(** * The data model *)
(* ================================================================== *)

Abbreviation array := (ndarray float).

(** A Python float taking part in array arithmetic, and [numpy.nan]. *)
Definition pyfloat (r : R) : array := Arr0 (Fin r).
Definition numpy_nan : array := Arr0 NaN.

(** [ModelParameters]: the typed dictionary of the seven parameters.  Its
    declaration, in [pvfit.modeling.dc.single_diode.equation.types], is not
    among the sources; the keys are those that [simulation.py] reads and
    passes to its constructor. *)
Record ModelParameters : Type := {
  N_s : array;
  T_degC : array;
  I_ph_A : array;
  I_rs_A : array;
  n : array;
  R_s_Ohm : array;
  G_p_S : array
}.

(** [IVData]: a paired sample of terminal current and voltage.  Its
    declaration, in [pvfit.measurement.iv.types], is not among the sources;
    it is taken as the pair of the two fields that [simulation.py] sets and
    reads. *)
Record IVData : Type := {
  I_A : array;
  V_V : array
}.

(** [IVCurveParametersArray]: the twelve curve parameters, with the fields
    that [iv_curve_parameters] sets (here prefixed by [cp_]). *)
Record IVCurveParametersArray : Type := {
  cp_I_sc_A : array;
  cp_R_sc_Ohm : array;
  cp_V_x_V : array;
  cp_I_x_A : array;
  cp_I_mp_A : array;
  cp_P_mp_W : array;
  cp_V_mp_V : array;
  cp_V_xx_V : array;
  cp_I_xx_A : array;
  cp_R_oc_Ohm : array;
  cp_V_oc_V : array;
  cp_FF : array
}.

(* ================================================================== *)
(** * The monad of a call: the dictionary as state, and exceptions *)
(* ================================================================== *)

(** A computation receives the dictionary bound to [model_parameters] and
    gives back a value or an exception, together with the dictionary as the
    computation leaves it. *)
Definition M (A : Type) : Type := ModelParameters -> result A * ModelParameters.

Definition ret {A} (a : A) : M A := fun s => (Ok a, s).

Definition raise {A} (e : exn) : M A := fun s => (Raise e, s).

Definition bind {A B} (m : M A) (k : A -> M B) : M B :=
  fun s =>
    match m s with
    | (Ok a, s') => k a s'
    | (Raise e, s') => (Raise e, s')
    end.

Definition lift {A} (r : result A) : M A := fun s => (r, s).

Definition eval {A} (m : M A) (s : ModelParameters) : result A := fst (m s).
Definition exec {A} (m : M A) (s : ModelParameters) : ModelParameters := snd (m s).

Notation "x <- e ;; k" := (bind e (fun x => k))
  (at level 61, e at next level, right associativity).
Notation "' p <- e ;; k" := (bind e (fun x => match x with p => k end))
  (at level 61, p pattern, e at next level, right associativity).

(** The field that a key names. *)
Definition field (key : string) : option (ModelParameters -> array) :=
  if String.eqb key "N_s" then Some N_s
  else if String.eqb key "T_degC" then Some T_degC
  else if String.eqb key "I_ph_A" then Some I_ph_A
  else if String.eqb key "I_rs_A" then Some I_rs_A
  else if String.eqb key "n" then Some n
  else if String.eqb key "R_s_Ohm" then Some R_s_Ohm
  else if String.eqb key "G_p_S" then Some G_p_S
  else None.

(** [model_parameters[key]]. *)
Definition getitem (key : string) : M array :=
  fun s =>
    match field key with
    | Some f => (Ok (f s), s)
    | None => (Raise KeyError, s)
    end.

(** [model_parameters[key] = value]: the write that a dictionary allows.  No
    function of [simulation.py] uses it. *)
Definition set_field (key : string) (value : array) (s : ModelParameters)
  : option ModelParameters :=
  if String.eqb key "N_s" then
    Some (Build_ModelParameters value (T_degC s) (I_ph_A s) (I_rs_A s) (n s) (R_s_Ohm s) (G_p_S s))
  else if String.eqb key "T_degC" then
    Some (Build_ModelParameters (N_s s) value (I_ph_A s) (I_rs_A s) (n s) (R_s_Ohm s) (G_p_S s))
  else if String.eqb key "I_ph_A" then
    Some (Build_ModelParameters (N_s s) (T_degC s) value (I_rs_A s) (n s) (R_s_Ohm s) (G_p_S s))
  else if String.eqb key "I_rs_A" then
    Some (Build_ModelParameters (N_s s) (T_degC s) (I_ph_A s) value (n s) (R_s_Ohm s) (G_p_S s))
  else if String.eqb key "n" then
    Some (Build_ModelParameters (N_s s) (T_degC s) (I_ph_A s) (I_rs_A s) value (R_s_Ohm s) (G_p_S s))
  else if String.eqb key "R_s_Ohm" then
    Some (Build_ModelParameters (N_s s) (T_degC s) (I_ph_A s) (I_rs_A s) (n s) value (G_p_S s))
  else if String.eqb key "G_p_S" then
    Some (Build_ModelParameters (N_s s) (T_degC s) (I_ph_A s) (I_rs_A s) (n s) (R_s_Ohm s) value)
  else None.

Definition setitem (key : string) (value : array) : M unit :=
  fun s =>
    match set_field key value s with
    | Some s' => (Ok tt, s')
    | None => (Raise KeyError, s)
    end.

(** A call [f(..., model_parameters=ModelParameters(...))]: the callee runs on
    the dictionary built for it, and the caller's dictionary is not involved. *)
Definition call_with {A} (fresh : ModelParameters) (m : M A) : M A :=
  fun s => (fst (m fresh), s).

(** A call [f(a, b)] evaluates its arguments from left to right. *)
Definition call2 {A B C} (f : A -> B -> M C) (a : M A) (b : M B) : M C :=
  x <- a ;; y <- b ;; f x y.

Fixpoint sequence {A} (l : list (M A)) : M (list A) :=
  match l with
  | [] => ret []
  | m :: l' => x <- m ;; xs <- sequence l' ;; ret (x :: xs)
  end.

(* ================================================================== *)
(** * Array arithmetic inside a call *)
(* ================================================================== *)

Definition pure_array (a : array) : M array := ret a.
#[warning="-uniform-inheritance"]
Coercion pure_array : ndarray >-> M.

Definition binop (f : float -> float -> float) (a b : M array) : M array :=
  x <- a ;; y <- b ;; lift (broadcast2 f x y).

Definition unop (f : float -> float) (a : M array) : M array :=
  x <- a ;; ret (nd_map f x).

Declare Scope py_scope.
Delimit Scope py_scope with py.
Bind Scope py_scope with M.

Notation "a + b" := (binop fadd a b) : py_scope.
Notation "a - b" := (binop fsub a b) : py_scope.
Notation "a * b" := (binop fmul a b) : py_scope.
Notation "a / b" := (binop fdiv a b) : py_scope.
Notation "- a" := (unop fneg a) : py_scope.
Notation "'model_parameters' [ key ]" := (getitem key)
  (at level 0, key at level 200) : py_scope.

(** [a ** 2]. *)
Definition square (a : M array) : M array := unop fsquare a.

Definition numpy_exp (a : M array) : M array := unop fexp a.
Definition numpy_expm1 (a : M array) : M array := unop fexpm1 a.
Definition numpy_log (a : M array) : M array := unop flog a.

Definition numpy_broadcast_arrays (l : list (M array)) : M (list array) :=
  xs <- sequence l ;; lift (broadcast_arrays xs).

Open Scope py_scope.
Open Scope string_scope.

(* ================================================================== *)
(** * pvfit.common and pvfit.modeling.dc.common *)
(* ================================================================== *)

(** Modelled from the spec: the elementary charge [q_C] of [pvfit.common],
    whose module is not among the sources; the value is the one that the
    specification gives and that [tests/common_test.py] asserts. *)
Definition q_C : R := 1.602176634e-19.

(** Modelled from the spec: the Boltzmann constant [k_B_J_per_K] of
    [pvfit.common], with the value that the specification gives and that
    [tests/common_test.py] asserts. *)
Definition k_B_J_per_K : R := 1.380649e-23.

(** [scipy.constants.convert_temperature(val, "Celsius", "Kelvin")]. *)
Definition zero_Celsius : R := 273.15.

Definition convert_temperature_Celsius_Kelvin (val : array) : M array :=
  val + pyfloat zero_Celsius.

(** Thermal voltage [V], scaled by the number of cells in series. *)
Definition get_scaled_thermal_voltage (N_s T_degC : array) : M array :=
  N_s
  * (pyfloat k_B_J_per_K
     * convert_temperature_Celsius_Kelvin T_degC
     / pyfloat q_C).

(* ================================================================== *)
(** * scipy.optimize.newton: the interface *)
(* ================================================================== *)

(** [RootResults], of which the wrappers read [root] and [converged]. *)
Record RootResults : Type := {
  root : float;
  converged : bool
}.

(** What [newton(..., full_output=True)] returns: [(root, converged,
    zero_der)] for an initial guess that is not a scalar, [(root, r)] with
    [r] a [RootResults] for a scalar one. *)
Inductive newton_output : Type :=
| NonScalarOutput (roots : array) (converged : ndarray bool) (zero_der : ndarray bool)
| ScalarOutput (p : float) (r : RootResults).

(** The objects that the wrappers find in a result of [newton]. *)
Inductive pyobj : Type :=
| PyFloatArray (a : array)
| PyBoolArray (b : ndarray bool)
| PyRootResults (r : RootResults).

(** [newton_result[0]] and [newton_result[1]]. *)
Definition newton_result_0 (o : newton_output) : array :=
  match o with
  | NonScalarOutput roots _ _ => roots
  | ScalarOutput p _ => Arr0 p
  end.

Definition newton_result_1 (o : newton_output) : pyobj :=
  match o with
  | NonScalarOutput _ conv _ => PyBoolArray conv
  | ScalarOutput _ r => PyRootResults r
  end.

(** [numpy.array(newton_result)[1]]: stacking [(root, converged, zero_der)]
    into one array of floats turns the flags into [1.0] and [0.0]; a pair
    [(root, r)] becomes an array of two objects. *)
Definition float_of_bool (b : bool) : float := if b then Fin 1 else Fin 0.

Definition stacked_result_1 (o : newton_output) : pyobj :=
  match o with
  | NonScalarOutput _ conv _ => PyFloatArray (nd_map float_of_bool conv)
  | ScalarOutput _ r => PyRootResults r
  end.

(** [o.root] and [o.converged]. *)
Definition getattr_root (o : pyobj) : result float :=
  match o with
  | PyRootResults r => Ok (root r)
  | _ => Raise AttributeError
  end.

Definition getattr_converged (o : pyobj) : result bool :=
  match o with
  | PyRootResults r => Ok (converged r)
  | _ => Raise AttributeError
  end.

(** [x == True] for a float. *)
Definition fequal_True (x : float) : bool :=
  match x with
  | Fin r => match Rsign (r - 1) with Eq => true | _ => false end
  | _ => false
  end.

(** [numpy.testing.assert_equal(o, True)]. *)
Definition assert_equal_True (o : pyobj) : result unit :=
  match o with
  | PyBoolArray b => assert_all_true b
  | PyFloatArray a =>
      if forallb fequal_True (elements a) then Ok tt else Raise AssertionError
  | PyRootResults _ => Raise AssertionError
  end.

(** The end of [I_at_V], [V_at_I] and [P_mp]: read the root and the flags
    from the result of [newton] according to the shape of the initial
    condition, verify convergence, and return the root. *)
Definition verify_convergence (ic : array) (item0 : array) (item1 : pyobj)
  : result array :=
  rbind
    (if shape_truthy (shape_of ic)
     then (* Non-scalar case. *)
       Ok (item0, item1)
     else (* Scalar case. *)
       rbind (getattr_root item1) (fun root_ =>
       rbind (getattr_converged item1) (fun converged_ =>
       Ok (Arr0 root_, PyBoolArray (Arr0 converged_)))))
    (fun rc => rbind (assert_equal_True (snd rc)) (fun _ => Ok (fst rc))).

(** The method that [newton] applies: the secant method without [fprime],
    Newton-Raphson with [fprime] alone, Halley's method with [fprime] and
    [fprime2]. *)
Inductive method : Type := Secant | NewtonRaphson | Halley.

(* ================================================================== *)
(** * pvfit.modeling.dc.single_diode.equation.simulation *)
(* ================================================================== *)

Section Simulation.

(** [NewtonOptions] is declared in [pvfit.types], which is not among the
    sources: the type of the options and the value of [NewtonOptions()] are
    parameters. *)
Variable NewtonOptions : Type.
Variable NewtonOptions_default : NewtonOptions.

(** The arguments of a call [newton(func, x0, fprime=..., fprime2=...,
    full_output=True, **newton_options)]. *)
Record newton_call : Type := {
  func : array -> M array;
  x0 : array;
  fprime : option (array -> M array);
  fprime2 : option (array -> M array);
  full_output : bool;
  options : NewtonOptions
}.

Definition newton_method (c : newton_call) : method :=
  match fprime c, fprime2 c with
  | None, _ => Secant
  | Some _, None => NewtonRaphson
  | Some _, Some _ => Halley
  end.

(** The solver.  It runs inside the call, because the functions that it is
    given do. *)
Variable newton : newton_call -> M newton_output.

Definition default_options (newton_options : option NewtonOptions) : NewtonOptions :=
  match newton_options with
  | None => NewtonOptions_default
  | Some o => o
  end.

(** Sum of the currents at the diode's anode. *)
Definition I_sum_diode_anode_at_I_V (iv_data : IVData) : M array :=
  (* Voltage at diode anode. *)
  V_diode_V <- V_V iv_data + I_A iv_data * model_parameters["R_s_Ohm"] ;;
  (* Modified ideality factor. *)
  n_mod_V <- model_parameters["n"]
             * call2 get_scaled_thermal_voltage
                 model_parameters["N_s"] model_parameters["T_degC"] ;;
  (* Sum of currents at diode node. *)
  model_parameters["I_ph_A"]
  - model_parameters["I_rs_A"] * numpy_expm1 (V_diode_V / n_mod_V)
  - model_parameters["G_p_S"] * V_diode_V
  - I_A iv_data.

(** [I_at_V] up to its call of [newton]: the arguments of that call. *)
Definition I_at_V_newton_call (V_V : array) (newton_options : option NewtonOptions)
  : M newton_call :=
  let newton_options := default_options newton_options in
  (* Ensure shapes are always full throughout computations. *)
  arrays <- numpy_broadcast_arrays
              [ret V_V;
               model_parameters["N_s"];
               model_parameters["T_degC"];
               model_parameters["I_ph_A"];
               model_parameters["I_rs_A"];
               model_parameters["n"];
               model_parameters["R_s_Ohm"];
               model_parameters["G_p_S"]] ;;
  match arrays with
  | [V_V; N_s; T_degC; I_ph_A; I_rs_A; n; R_s_Ohm; G_p_S] =>
      (* Modified ideality factor. *)
      n_mod_V <- n * get_scaled_thermal_voltage N_s T_degC ;;
      (* Closures for the newton() call. *)
      let I_sum_diode_anode_at_I (I_A : array) : M array :=
        call_with
          (Build_ModelParameters N_s T_degC I_ph_A I_rs_A n R_s_Ohm G_p_S)
          (I_sum_diode_anode_at_I_V (Build_IVData I_A V_V)) in
      let dI_sum_diode_anode_dI_at_I (I_A : array) : M array :=
        - I_rs_A * R_s_Ohm / n_mod_V * numpy_exp ((V_V + I_A * R_s_Ohm) / n_mod_V)
        - G_p_S * R_s_Ohm
        - pyfloat 1 in
      let d2I_sum_diode_anode_dI2_at_I (I_A : array) : M array :=
        - I_rs_A
        * square (R_s_Ohm / n_mod_V)
        * numpy_exp ((V_V + I_A * R_s_Ohm) / n_mod_V) in
      (* Initial condition (IC) for newton solver using zero R_s_Ohm. *)
      I_A_ic <- I_ph_A - I_rs_A * numpy_expm1 (V_V / n_mod_V) - G_p_S * V_V ;;
      ret {| func := I_sum_diode_anode_at_I;
             x0 := I_A_ic;
             fprime := Some dI_sum_diode_anode_dI_at_I;
             fprime2 := Some d2I_sum_diode_anode_dI2_at_I;
             full_output := true;
             options := newton_options |}
  | _ => raise ValueError
  end.

(** Terminal current at specified terminal voltage. *)
Definition I_at_V (V_V : array) (newton_options : option NewtonOptions) : M array :=
  call <- I_at_V_newton_call V_V newton_options ;;
  (* Solve for I_A using Halley's method. *)
  newton_result <- newton call ;;
  (* Verify convergence. *)
  lift (verify_convergence (x0 call)
          (newton_result_0 newton_result) (newton_result_1 newton_result)).

(** 1st derivative of terminal current with respect to terminal voltage. *)
Definition dI_dV_at_V (V_V : array) (newton_options : option NewtonOptions)
  : M (array * array) :=
  (* Compute terminal current. *)
  I_A <- I_at_V V_V newton_options ;;
  (* Modified ideality factor. *)
  n_mod_V <- model_parameters["n"]
             * call2 get_scaled_thermal_voltage
                 model_parameters["N_s"] model_parameters["T_degC"] ;;
  expr1 <- model_parameters["I_rs_A"]
           / n_mod_V
           * numpy_exp ((V_V + I_A * model_parameters["R_s_Ohm"]) / n_mod_V)
           + model_parameters["G_p_S"] ;;
  dI_dV_S <- - expr1 / (pyfloat 1 + model_parameters["R_s_Ohm"] * expr1) ;;
  ret (dI_dV_S, I_A).

(** 2nd derivative of terminal current with respect to terminal voltage. *)
Definition d2I_dV2_at_V (V_V : array) (newton_options : option NewtonOptions)
  : M (array * array * array) :=
  (* Compute terminal current. *)
  I_A <- I_at_V V_V newton_options ;;
  (* Modified ideality factor. *)
  n_mod_V <- model_parameters["n"]
             * call2 get_scaled_thermal_voltage
                 model_parameters["N_s"] model_parameters["T_degC"] ;;
  expr0 <- numpy_exp ((V_V + I_A * model_parameters["R_s_Ohm"]) / n_mod_V) ;;
  expr1 <- model_parameters["I_rs_A"] / n_mod_V ;;
  expr2 <- expr1 * expr0 ;;
  expr3 <- expr2 + model_parameters["G_p_S"] ;;
  expr4 <- pyfloat 1 + model_parameters["R_s_Ohm"] * expr3 ;;
  dI_dV_S <- - expr3 / expr4 ;;
  d2I_dV2_S <- (- expr2 / n_mod_V
                * (pyfloat 1 + dI_dV_S * model_parameters["R_s_Ohm"]))
               / expr4 ;;
  ret (d2I_dV2_S, dI_dV_S, I_A).

(** [V_at_I] up to its call of [newton]: the arguments of that call. *)
Definition V_at_I_newton_call (I_A : array) (newton_options : option NewtonOptions)
  : M newton_call :=
  let newton_options := default_options newton_options in
  (* Ensure shapes are always full throughout computations. *)
  arrays <- numpy_broadcast_arrays
              [ret I_A;
               model_parameters["N_s"];
               model_parameters["T_degC"];
               model_parameters["I_ph_A"];
               model_parameters["I_rs_A"];
               model_parameters["n"];
               model_parameters["R_s_Ohm"];
               model_parameters["G_p_S"]] ;;
  match arrays with
  | [I_A; N_s; T_degC; I_ph_A; I_rs_A; n; R_s_Ohm; G_p_S] =>
      (* Modified ideality factor. *)
      n_mod_V <- n * get_scaled_thermal_voltage N_s T_degC ;;
      (* Closures for the newton() call. *)
      let I_sum_diode_anode_at_V (V_V : array) : M array :=
        call_with
          (Build_ModelParameters N_s T_degC I_ph_A I_rs_A n R_s_Ohm G_p_S)
          (I_sum_diode_anode_at_I_V (Build_IVData I_A V_V)) in
      let dI_sum_diode_anode_dV_at_V (V_V : array) : M array :=
        - I_rs_A / n_mod_V * numpy_exp ((V_V + I_A * R_s_Ohm) / n_mod_V) - G_p_S in
      let d2I_sum_diode_anode_dV2_at_V (V_V : array) : M array :=
        - I_rs_A / square n_mod_V * numpy_exp ((V_V + I_A * R_s_Ohm) / n_mod_V) in
      (* Initial condition (IC) for newton solver using zero G_p_S. *)
      V_V_ic <- n_mod_V * (numpy_log (I_ph_A + I_rs_A - I_A) - numpy_log I_rs_A)
                - I_A * R_s_Ohm ;;
      ret {| func := I_sum_diode_anode_at_V;
             x0 := V_V_ic;
             fprime := Some dI_sum_diode_anode_dV_at_V;
             fprime2 := Some d2I_sum_diode_anode_dV2_at_V;
             full_output := true;
             options := newton_options |}
  | _ => raise ValueError
  end.

(** Terminal voltage at specified terminal current. *)
Definition V_at_I (I_A : array) (newton_options : option NewtonOptions) : M array :=
  call <- V_at_I_newton_call I_A newton_options ;;
  (* Solve for V_V using Halley's method. *)
  newton_result <- newton call ;;
  (* Verify convergence. *)
  lift (verify_convergence (x0 call)
          (newton_result_0 newton_result) (newton_result_1 newton_result)).

(** 1st derivative of terminal voltage with respect to terminal current. *)
Definition dV_dI_at_I (I_A : array) (newton_options : option NewtonOptions)
  : M (array * array) :=
  (* Compute terminal voltage. *)
  V_V <- V_at_I I_A newton_options ;;
  (* Modified ideality factor. *)
  n_mod_V <- model_parameters["n"]
             * call2 get_scaled_thermal_voltage
                 model_parameters["N_s"] model_parameters["T_degC"] ;;
  expr1 <- model_parameters["I_rs_A"]
           / n_mod_V
           * numpy_exp ((V_V + I_A * model_parameters["R_s_Ohm"]) / n_mod_V)
           + model_parameters["G_p_S"] ;;
  dV_dI_Ohm <- - pyfloat 1 / expr1 - model_parameters["R_s_Ohm"] ;;
  ret (dV_dI_Ohm, V_V).

(** Terminal power at specified terminal voltage. *)
Definition P_at_V (V_V : array) (newton_options : option NewtonOptions)
  : M (array * array) :=
  (* Compute current at voltage. *)
  I_A <- I_at_V V_V newton_options ;;
  (* Compute power at voltage. *)
  P_W <- V_V * I_A ;;
  ret (P_W, I_A).

(** The closures of [P_mp]: the 1st and 2nd derivatives of power with respect
    to voltage. *)
Definition dP_dV (newton_options : NewtonOptions) (V_V : array) : M array :=
  '(dI_dV_S, I_A) <- dI_dV_at_V V_V (Some newton_options) ;;
  dI_dV_S * V_V + I_A.

Definition d2P_dV2 (newton_options : NewtonOptions) (V_V : array) : M array :=
  '(d2I_dV2_S_per_V, dI_dV_S, _) <- d2I_dV2_at_V V_V (Some newton_options) ;;
  d2I_dV2_S_per_V * V_V + pyfloat 2 * dI_dV_S.

(** The arguments of the call of [newton] in [P_mp]:
    [newton(dP_dV, V_mp_V_ic, fprime=d2P_dV2, full_output=True,
    **newton_options)]. *)
Definition P_mp_newton_call (newton_options : NewtonOptions) (V_mp_V_ic : array)
  : newton_call :=
  {| func := dP_dV newton_options;
     x0 := V_mp_V_ic;
     fprime := Some (d2P_dV2 newton_options);
     fprime2 := None;
     full_output := true;
     options := newton_options |}.

(** Maximum terminal power. *)
Definition P_mp (newton_options : option NewtonOptions)
  : M (array * array * array * array) :=
  let newton_options := default_options newton_options in
  (* Compute Voc for assumed Vmp-bracketing interval [0, Voc]. *)
  V_oc_V <- V_at_I (pyfloat 0) (Some newton_options) ;;
  V_mp_V_ic <- pyfloat (3 / 4) * V_oc_V ;;
  (* Solve for V_mp_V using Newton's method. *)
  newton_result <- newton (P_mp_newton_call newton_options V_mp_V_ic) ;;
  (* Verify convergence. *)
  V_mp_V <- lift (verify_convergence V_mp_V_ic
                    (newton_result_0 newton_result)
                    (stacked_result_1 newton_result)) ;;
  I_mp_A <- I_at_V V_mp_V (Some newton_options) ;;
  P_mp_W <- I_mp_A * V_mp_V ;;
  ret (P_mp_W, I_mp_A, V_mp_V, V_oc_V).

(** Fill factor. *)
Definition FF (newton_options : option NewtonOptions)
  : M (array * array * array * array * array * array) :=
  (* Compute Isc. *)
  I_sc_A <- I_at_V (pyfloat 0) newton_options ;;
  (* Compute Pmp. *)
  '(P_mp_W, I_mp_A, V_mp_V, V_oc_V) <- P_mp newton_options ;;
  (* Compute FF. *)
  denominator <- I_sc_A * V_oc_V ;;
  quotient <- P_mp_W / denominator ;;
  FF_ <- lift (numpy_where (nd_map fnonzero denominator) quotient numpy_nan) ;;
  ret (FF_, I_sc_A, I_mp_A, P_mp_W, V_mp_V, V_oc_V).

(** Terminal resistance at short circuit. *)
Definition R_at_sc (newton_options : option NewtonOptions) : M (array * array) :=
  (* Compute derivative at Isc. *)
  '(dI_dV_S, I_sc_A) <- dI_dV_at_V (pyfloat 0) newton_options ;;
  (* Compute resistance at Isc. *)
  R_sc_Ohm <- - pyfloat 1 / dI_dV_S ;;
  ret (R_sc_Ohm, I_sc_A).

(** Terminal resistance at open circuit. *)
Definition R_at_oc (newton_options : option NewtonOptions) : M (array * array) :=
  (* Compute Voc. *)
  V_oc_V <- V_at_I (pyfloat 0) newton_options ;;
  '(dI_dV_S, _) <- dI_dV_at_V V_oc_V newton_options ;;
  (* Compute slope at Voc. *)
  R_oc_Ohm <- - pyfloat 1 / dI_dV_S ;;
  ret (R_oc_Ohm, V_oc_V).

(** I-V curve parameters. *)
Definition iv_curve_parameters (newton_options : option NewtonOptions)
  : M IVCurveParametersArray :=
  '(FF_, I_sc_A, I_mp_A, P_mp_W, V_mp_V, V_oc_V) <- FF newton_options ;;
  '(R_sc_Ohm, _) <- R_at_sc newton_options ;;
  V_x_V <- V_oc_V / pyfloat 2 ;;
  I_x_A <- I_at_V V_x_V newton_options ;;
  V_xx_V <- (V_mp_V + V_oc_V) / pyfloat 2 ;;
  I_xx_A <- I_at_V V_xx_V newton_options ;;
  '(R_oc_Ohm, _) <- R_at_oc newton_options ;;
  ret {| cp_I_sc_A := I_sc_A;
         cp_R_sc_Ohm := R_sc_Ohm;
         cp_V_x_V := V_x_V;
         cp_I_x_A := I_x_A;
         cp_I_mp_A := I_mp_A;
         cp_P_mp_W := P_mp_W;
         cp_V_mp_V := V_mp_V;
         cp_V_xx_V := V_xx_V;
         cp_I_xx_A := I_xx_A;
         cp_R_oc_Ohm := R_oc_Ohm;
         cp_V_oc_V := V_oc_V;
         cp_FF := FF_ |}.

End Simulation.

Arguments func {NewtonOptions} _ _ _.
Arguments x0 {NewtonOptions} _.
Arguments fprime {NewtonOptions} _.
Arguments fprime2 {NewtonOptions} _.
Arguments options {NewtonOptions} _.

(* ================================================================== *)
(** * Vocabulary of the properties *)
(* ================================================================== *)

(** A computation that leaves the dictionary as it found it. *)
Definition preserves {A} (m : M A) : Prop :=
  forall s, exec m s = s.

(** The number of positions of a shape. *)
Definition shape_size (s : shape) : nat :=
  match s with None => 1 | Some k => k end.




(** The inputs that [I_at_V] and [V_at_I] broadcast together. *)
Definition broadcast_inputs (X : array) (mp : ModelParameters) : list array :=
  [X; N_s mp; T_degC mp; I_ph_A mp; I_rs_A mp; n mp; R_s_Ohm mp; G_p_S mp].

(** The seven parameters at one position of a batch, as real numbers. *)
Record point : Type := {
  p_N_s : R;
  p_T_degC : R;
  p_I_ph_A : R;
  p_I_rs_A : R;
  p_n : R;
  p_R_s_Ohm : R;
  p_G_p_S : R
}.

(** Position [i] of the parameters holds the finite numbers of [p]. *)
Definition params_at (mp : ModelParameters) (i : nat) (p : point) : Prop :=
  bitem (N_s mp) i = Some (Fin (p_N_s p))
  /\ bitem (T_degC mp) i = Some (Fin (p_T_degC p))
  /\ bitem (I_ph_A mp) i = Some (Fin (p_I_ph_A p))
  /\ bitem (I_rs_A mp) i = Some (Fin (p_I_rs_A p))
  /\ bitem (n mp) i = Some (Fin (p_n p))
  /\ bitem (R_s_Ohm mp) i = Some (Fin (p_R_s_Ohm p))
  /\ bitem (G_p_S mp) i = Some (Fin (p_G_p_S p)).

(** Valid parameters (section 3 of the specification). *)
Definition valid_point (p : point) : Prop :=
  (0 < p_N_s p
   /\ - zero_Celsius < p_T_degC p
   /\ 0 <= p_I_ph_A p
   /\ 0 < p_I_rs_A p
   /\ 0 < p_n p
   /\ 0 <= p_R_s_Ohm p
   /\ 0 <= p_G_p_S p)%R.

(** The modified ideality factor [n * N_s * (k_B * T_K / q)] at a point. *)
Definition n_mod_at (p : point) : R :=
  (p_n p * p_N_s p * (k_B_J_per_K * (p_T_degC p + zero_Celsius) / q_C))%R.

(** The sum of currents of the specification (section 4.1) at a point. *)
Definition I_sum_spec (p : point) (I V : R) : R :=
  (let V_diode := V + I * p_R_s_Ohm p in
   p_I_ph_A p
   - p_I_rs_A p * (exp (V_diode / n_mod_at p) - 1)
   - p_G_p_S p * V_diode
   - I)%R.


(** The expression of which [V_at_I] takes the logarithm. *)
Definition log_argument (p : point) (I : R) : R :=
  (p_I_ph_A p + p_I_rs_A p - I)%R.

(** [reads m s r]: run on [s], the computation [m] gives [r] and leaves [s]
    as it is. *)
Definition reads {A} (m : M A) (s : ModelParameters) (r : result A) : Prop :=
  m s = (r, s).

(** The value of the scaled thermal voltage, as a result. *)
Definition scaled_thermal_voltage_value (N_s T_degC : array) : result array :=
  rbind (rbind (rbind (broadcast2 fadd T_degC (pyfloat zero_Celsius))
                      (fun T_K => broadcast2 fmul (pyfloat k_B_J_per_K) T_K))
               (fun kT => broadcast2 fdiv kT (pyfloat q_C)))
        (fun V_th => broadcast2 fmul N_s V_th).

(** The shape [t] broadcasts to the shape [sh]. *)
Definition fits (t sh : shape) : Prop :=
  t = None \/ (t = Some 1%nat /\ sh <> None) \/ t = sh.


(** The solver touches the dictionary only through the functions that it is
    given. *)
Definition solver_preserves {O} (newton : newton_call O -> M newton_output) : Prop :=
  forall c : newton_call O,
    (forall x, preserves (func c x)) ->
    (forall f, fprime c = Some f -> forall x, preserves (f x)) ->
    (forall f, fprime2 c = Some f -> forall x, preserves (f x)) ->
    preserves (newton c).


(* ================================================================== *)
(** * Solvers and parameters for the examples *)
(* ================================================================== *)

(** A solver that accepts the initial guess as it is. *)
Definition newton_accept {O} (c : newton_call O) : M newton_output :=
  ret (match x0 c with
       | Arr0 x => ScalarOutput x {| root := x; converged := true |}
       | Arr1 xs =>
           NonScalarOutput (Arr1 xs)
             (Arr1 (map (fun _ => true) xs)) (Arr1 (map (fun _ => false) xs))
       end).




(** The example scenario of the specification (section 8). *)
Definition example_point : point :=
  {| p_N_s := 1; p_T_degC := 25; p_I_ph_A := 6; p_I_rs_A := 1e-9;
     p_n := 1; p_R_s_Ohm := 0.05; p_G_p_S := 0.001 |}.

Definition scalar_parameters (p : point) : ModelParameters :=
  {| N_s := pyfloat (p_N_s p);
     T_degC := pyfloat (p_T_degC p);
     I_ph_A := pyfloat (p_I_ph_A p);
     I_rs_A := pyfloat (p_I_rs_A p);
     n := pyfloat (p_n p);
     R_s_Ohm := pyfloat (p_R_s_Ohm p);
     G_p_S := pyfloat (p_G_p_S p) |}.

Definition example_parameters : ModelParameters := scalar_parameters example_point.


(** The example scenario without photocurrent: a degenerate state. *)
Definition degenerate_point : point :=
  {| p_N_s := 1; p_T_degC := 25; p_I_ph_A := 0; p_I_rs_A := 1e-9;
     p_n := 1; p_R_s_Ohm := 0.05; p_G_p_S := 0.001 |}.

Unset Implicit Arguments.
Close Scope py_scope.
Close Scope string_scope.
Open Scope R_scope.

(* ================================================================== *)
(** * Properties of the numbers *)
(* ================================================================== *)

Lemma Rsign_pos (r : R) : 0 < r -> Rsign r = Gt.
Proof.
  intros H. unfold Rsign.
  destruct (total_order_T r 0) as [[Hlt | Heq] | Hgt]; try reflexivity; lra.
Qed.

Lemma Rsign_neg (r : R) : r < 0 -> Rsign r = Lt.
Proof.
  intros H. unfold Rsign.
  destruct (total_order_T r 0) as [[Hlt | Heq] | Hgt]; try reflexivity; lra.
Qed.

Lemma Rsign_zero : Rsign 0 = Eq.
Proof.
  unfold Rsign.
  destruct (total_order_T 0 0) as [[Hlt | Heq] | Hgt]; try reflexivity; lra.
Qed.

Lemma Rsign_Eq_inv (r : R) : Rsign r = Eq -> r = 0.
Proof.
  unfold Rsign.
  destruct (total_order_T r 0) as [[Hlt | Heq] | Hgt]; intros H;
    try discriminate; assumption.
Qed.

Lemma Rsign_nonzero (r : R) : r <> 0 -> Rsign r <> Eq.
Proof.
  intros H E. apply H, Rsign_Eq_inv, E.
Qed.

Lemma fdiv_fin (a b : R) : b <> 0 -> fdiv (Fin a) (Fin b) = Fin (a / b).
Proof.
  intros H. unfold fdiv.
  destruct (Rsign b) eqn:E; try reflexivity.
  exfalso. revert E. apply Rsign_nonzero, H.
Qed.

Lemma flog_pos (r : R) : 0 < r -> flog (Fin r) = Fin (ln r).
Proof.
  intros H. unfold flog. rewrite Rsign_pos by exact H. reflexivity.
Qed.

Lemma flog_neg (r : R) : r < 0 -> flog (Fin r) = NaN.
Proof.
  intros H. unfold flog. rewrite Rsign_neg by exact H. reflexivity.
Qed.

Lemma flog_zero : flog (Fin 0) = NInf.
Proof.
  unfold flog. rewrite Rsign_zero. reflexivity.
Qed.

Lemma fnonzero_false (x : float) : fnonzero x = false <-> x = Fin 0.
Proof.
  split.
  - destruct x as [r | | |]; simpl; try discriminate.
    destruct (Rsign r) eqn:E; try discriminate.
    intros _. f_equal. apply Rsign_Eq_inv, E.
  - intros ->. simpl. rewrite Rsign_zero. reflexivity.
Qed.

Lemma fnonzero_true (x : float) : fnonzero x = true <-> x <> Fin 0.
Proof.
  rewrite <- fnonzero_false. destruct (fnonzero x); split; congruence.
Qed.

Lemma fadd_NaN_l (x : float) : fadd NaN x = NaN.
Proof. destruct x; reflexivity. Qed.

Lemma fadd_NaN_r (x : float) : fadd x NaN = NaN.
Proof. destruct x; reflexivity. Qed.

Lemma fsub_NaN_l (x : float) : fsub NaN x = NaN.
Proof. destruct x; reflexivity. Qed.

Lemma fmul_NaN_l (x : float) : fmul NaN x = NaN.
Proof. destruct x; reflexivity. Qed.

Lemma fmul_NaN_r (x : float) : fmul x NaN = NaN.
Proof. destruct x; reflexivity. Qed.

Close Scope R_scope.

(* ================================================================== *)
(** * Properties of the arrays *)
(* ================================================================== *)

Lemma map2_repeat_l {A B C} (f : A -> B -> C) (x : A) (ys : list B) :
  map2 f (repeat x (length ys)) ys = map (f x) ys.
Proof.
  unfold map2. induction ys as [| y ys IH]; simpl; [reflexivity |].
  f_equal. exact IH.
Qed.

Lemma map2_repeat_r {A B C} (f : A -> B -> C) (xs : list A) (y : B) :
  map2 f xs (repeat y (length xs)) = map (fun x => f x y) xs.
Proof.
  unfold map2. induction xs as [| x xs IH]; simpl; [reflexivity |].
  f_equal. exact IH.
Qed.

Lemma length_map2 {A B C} (f : A -> B -> C) (xs : list A) (ys : list B) :
  length xs = length ys -> length (map2 f xs ys) = length xs.
Proof.
  intros H. unfold map2. rewrite length_map, length_combine, <- H.
  apply Nat.min_id.
Qed.

Lemma nth_error_map2 {A B C} (f : A -> B -> C) (xs : list A) (ys : list B) i :
  nth_error (map2 f xs ys) i = olift2 f (nth_error xs i) (nth_error ys i).
Proof.
  unfold map2. revert ys i.
  induction xs as [| x xs IH]; intros [| y ys] [| i]; simpl; try reflexivity.
  - destruct (nth_error xs i); reflexivity.
  - apply IH.
Qed.


Lemma hd_error_map {A B} (f : A -> B) (xs : list A) :
  hd_error (map f xs) = option_map f (hd_error xs).
Proof. destruct xs; reflexivity. Qed.

Lemma bitem_Arr1_single {A} (x : A) i : bitem (Arr1 [x]) i = Some x.
Proof. reflexivity. Qed.

Lemma bitem_nd_map {A B} (f : A -> B) (a : ndarray A) i :
  bitem (nd_map f a) i = option_map f (bitem a i).
Proof.
  destruct a as [x | xs]; simpl; [reflexivity |].
  rewrite length_map.
  destruct (Nat.eqb (length xs) 1).
  - apply hd_error_map.
  - apply nth_error_map.
Qed.

Lemma shape_of_nd_map {A B} (f : A -> B) (a : ndarray A) :
  shape_of (nd_map f a) = shape_of a.
Proof.
  destruct a; simpl; [reflexivity |]. rewrite length_map. reflexivity.
Qed.


(** Broadcasting a one-element list. *)
Lemma broadcast_to_single {A} (x : A) k :
  broadcast_to (Some k) (Arr1 [x]) = Arr1 (repeat x k).
Proof. reflexivity. Qed.

Lemma broadcast_to_full {A} (xs : list A) k :
  length xs <> 1 -> broadcast_to (Some k) (Arr1 xs) = Arr1 xs.
Proof.
  destruct xs as [| x [| y xs]]; simpl; intros H; try reflexivity.
  exfalso. apply H. reflexivity.
Qed.

Lemma broadcast_to_same {A} (a : ndarray A) :
  broadcast_to (shape_of a) a = a.
Proof.
  destruct a as [x | xs]; [reflexivity |].
  destruct xs as [| x [| y xs]]; reflexivity.
Qed.

(** A binary operation between arrays of one shape combines them element by
    element. *)
Lemma broadcast2_same_shape {A B C} (f : A -> B -> C) (a : ndarray A) (b : ndarray B) :
  shape_of a = shape_of b -> broadcast2 f a b = Ok (zip_with f a b).
Proof.
  intros H. unfold broadcast2. rewrite <- H.
  assert (E : broadcast_shape (shape_of a) (shape_of a) = Some (shape_of a)).
  { destruct a; simpl; [reflexivity |]. rewrite Nat.eqb_refl. reflexivity. }
  rewrite E. rewrite broadcast_to_same.
  rewrite H at 1. rewrite broadcast_to_same. reflexivity.
Qed.

Lemma broadcast2_Arr0_l {A B C} (f : A -> B -> C) (x : A) (b : ndarray B) :
  broadcast2 f (Arr0 x) b = Ok (nd_map (f x) b).
Proof.
  unfold broadcast2. destruct b as [y | ys]; [reflexivity |].
  cbn [shape_of broadcast_shape]. f_equal.
  destruct (Nat.eq_dec (length ys) 1) as [E | E].
  - destruct ys as [| y [| ? ?]]; try discriminate. reflexivity.
  - rewrite broadcast_to_full by exact E. cbn [broadcast_to zip_with nd_map].
    rewrite map2_repeat_l. reflexivity.
Qed.

Lemma broadcast2_Arr0_r {A B C} (f : A -> B -> C) (a : ndarray A) (y : B) :
  broadcast2 f a (Arr0 y) = Ok (nd_map (fun x => f x y) a).
Proof.
  unfold broadcast2. destruct a as [x | xs]; [reflexivity |].
  cbn [shape_of broadcast_shape]. f_equal.
  destruct (Nat.eq_dec (length xs) 1) as [E | E].
  - destruct xs as [| x [| ? ?]]; try discriminate. reflexivity.
  - rewrite broadcast_to_full by exact E. cbn [broadcast_to zip_with nd_map].
    rewrite map2_repeat_r. reflexivity.
Qed.

Lemma shape_of_zip_with {A B C} (f : A -> B -> C) (a : ndarray A) (b : ndarray B) :
  shape_of a = shape_of b -> shape_of (zip_with f a b) = shape_of a.
Proof.
  destruct a as [x | xs], b as [y | ys]; simpl; try discriminate; try reflexivity.
  intros H. injection H as H. rewrite length_map2 by exact H. reflexivity.
Qed.

Lemma bitem_zip_with {A B C} (f : A -> B -> C) (a : ndarray A) (b : ndarray B) i :
  shape_of a = shape_of b ->
  bitem (zip_with f a b) i = olift2 f (bitem a i) (bitem b i).
Proof.
  destruct a as [x | xs], b as [y | ys]; simpl; try discriminate; try reflexivity.
  intros H. injection H as H. rewrite length_map2 by exact H. rewrite <- H.
  destruct (Nat.eqb (length xs) 1) eqn:E.
  - apply Nat.eqb_eq in E.
    destruct xs as [| x [| ? ?]]; try discriminate.
    destruct ys as [| y [| ? ?]]; try discriminate. reflexivity.
  - apply nth_error_map2.
Qed.

Lemma broadcast2_single_l {A B C} (f : A -> B -> C) (x : A) (ys : list B) :
  length ys <> 1 ->
  broadcast2 f (Arr1 [x]) (Arr1 ys) = Ok (Arr1 (map (f x) ys)).
Proof.
  intros H. unfold broadcast2. cbn [shape_of broadcast_shape length].
  destruct (Nat.eqb 1 (length ys)) eqn:E.
  { apply Nat.eqb_eq in E. congruence. }
  cbn [Nat.eqb]. rewrite broadcast_to_single, broadcast_to_full by exact H.
  cbn [zip_with]. rewrite map2_repeat_l. reflexivity.
Qed.

Lemma broadcast2_single_r {A B C} (f : A -> B -> C) (xs : list A) (y : B) :
  length xs <> 1 ->
  broadcast2 f (Arr1 xs) (Arr1 [y]) = Ok (Arr1 (map (fun x => f x y) xs)).
Proof.
  intros H. unfold broadcast2. cbn [shape_of broadcast_shape length].
  destruct (Nat.eqb (length xs) 1) eqn:E.
  { apply Nat.eqb_eq in E. congruence. }
  cbn [Nat.eqb]. rewrite broadcast_to_single, broadcast_to_full by exact H.
  cbn [zip_with]. rewrite map2_repeat_r. reflexivity.
Qed.

(** The pointwise meaning of a binary operation, whatever the shapes. *)
Lemma bitem_broadcast2 {A B C} (f : A -> B -> C) (a : ndarray A) (b : ndarray B) c i :
  broadcast2 f a b = Ok c ->
  bitem c i = olift2 f (bitem a i) (bitem b i).
Proof.
  destruct a as [x | xs].
  { rewrite broadcast2_Arr0_l. intros H.
    assert (E : c = nd_map (f x) b) by congruence.
    rewrite E, bitem_nd_map. simpl. destruct (bitem b i); reflexivity. }
  destruct b as [y | ys].
  { rewrite broadcast2_Arr0_r. intros H.
    assert (E : c = nd_map (fun x => f x y) (Arr1 xs)) by congruence.
    rewrite E, bitem_nd_map.
    destruct (bitem (Arr1 xs) i); reflexivity. }
  destruct (Nat.eq_dec (length xs) (length ys)) as [E | E].
  { assert (Hs : shape_of (Arr1 xs) = shape_of (Arr1 ys)) by (simpl; congruence).
    rewrite broadcast2_same_shape by exact Hs. intros H.
    assert (Ec : c = zip_with f (Arr1 xs) (Arr1 ys)) by congruence.
    rewrite Ec. apply bitem_zip_with, Hs. }
  destruct (Nat.eq_dec (length xs) 1) as [E1 | E1].
  { destruct xs as [| x [| ? ?]]; try discriminate.
    assert (Hy : length ys <> 1) by (simpl in E; congruence).
    rewrite broadcast2_single_l by exact Hy. intros H.
    assert (Ec : c = nd_map (f x) (Arr1 ys)) by (simpl; congruence).
    rewrite Ec, bitem_nd_map. rewrite bitem_Arr1_single.
    destruct (bitem (Arr1 ys) i); reflexivity. }
  destruct (Nat.eq_dec (length ys) 1) as [E2 | E2].
  { destruct ys as [| y [| ? ?]]; try discriminate.
    rewrite broadcast2_single_r by exact E1. intros H.
    assert (Ec : c = nd_map (fun x => f x y) (Arr1 xs)) by (simpl; congruence).
    rewrite Ec, bitem_nd_map. rewrite bitem_Arr1_single.
    destruct (bitem (Arr1 xs) i); reflexivity. }
  unfold broadcast2. cbn [shape_of broadcast_shape].
  apply Nat.eqb_neq in E, E1, E2. rewrite E, E1, E2. discriminate.
Qed.

(* ================================================================== *)
(** * Shapes and broadcasting *)
(* ================================================================== *)

Lemma fits_refl (sh : shape) : fits sh sh.
Proof. right. right. reflexivity. Qed.

Lemma fits_trans (t s u : shape) : fits t s -> fits s u -> fits t u.
Proof.
  intros [-> | [[-> Hs] | ->]] Hsu;
    [left; reflexivity | | exact Hsu].
  destruct Hsu as [-> | [[-> Hu] | ->]].
  - exfalso. apply Hs. reflexivity.
  - right. left. split; [reflexivity | exact Hu].
  - right. left. split; [reflexivity | exact Hs].
Qed.

Lemma broadcast_shape_fits (s t u : shape) :
  broadcast_shape s t = Some u -> fits s u /\ fits t u.
Proof.
  destruct s as [m |], t as [k |]; simpl.
  - destruct (Nat.eqb m k) eqn:E.
    { apply Nat.eqb_eq in E. subst k. intros [= <-].
      split; apply fits_refl. }
    destruct (Nat.eqb m 1) eqn:E1.
    { apply Nat.eqb_eq in E1. subst m. intros [= <-].
      split; [| apply fits_refl].
      right. left. split; [reflexivity | discriminate]. }
    destruct (Nat.eqb k 1) eqn:E2; [| discriminate].
    apply Nat.eqb_eq in E2. subst k. intros [= <-].
    split; [apply fits_refl |].
    right. left. split; [reflexivity | discriminate].
  - intros [= <-]. split; [apply fits_refl | left; reflexivity].
  - intros [= <-]. split; [left; reflexivity | apply fits_refl].
  - intros [= <-]. split; apply fits_refl.
Qed.

Lemma fits_broadcast_shape (s t u : shape) :
  fits s u -> fits t u -> exists v, broadcast_shape s t = Some v /\ fits v u.
Proof.
  intros Hs Ht.
  destruct s as [m |]; [| exists t; split; [reflexivity | exact Ht]].
  destruct t as [k |]; [| exists (Some m); split; [reflexivity | exact Hs]].
  simpl.
  destruct (Nat.eqb m k) eqn:E; [eexists; split; [reflexivity | exact Hs] |].
  destruct (Nat.eqb m 1) eqn:E1; [eexists; split; [reflexivity | exact Ht] |].
  destruct (Nat.eqb k 1) eqn:E2; [eexists; split; [reflexivity | exact Hs] |].
  exfalso.
  apply Nat.eqb_neq in E, E1, E2.
  destruct Hs as [Hs | [[Hs _] | Hs]]; try congruence.
  destruct Ht as [Ht | [[Ht _] | Ht]]; congruence.
Qed.

Lemma shape_of_broadcast_to {A} (sh : shape) (a : ndarray A) :
  fits (shape_of a) sh -> shape_of (broadcast_to sh a) = sh.
Proof.
  destruct a as [x | xs]; cbn [shape_of].
  - intros _. destruct sh as [k |]; cbn [broadcast_to shape_of]; [| reflexivity].
    rewrite repeat_length. reflexivity.
  - intros [H | [[H Hsh] | H]]; [discriminate | |].
    + destruct xs as [| x [| ? ?]]; try discriminate.
      destruct sh as [k |]; [| exfalso; apply Hsh; reflexivity].
      cbn [broadcast_to shape_of]. rewrite repeat_length. reflexivity.
    + subst sh. change (Some (length xs)) with (shape_of (Arr1 xs)) at 1.
      rewrite broadcast_to_same. reflexivity.
Qed.

Lemma bitem_repeat {A} (x : A) (k i : nat) :
  (i < k)%nat -> bitem (Arr1 (repeat x k)) i = Some x.
Proof.
  intros Hi. simpl. rewrite repeat_length.
  destruct (Nat.eqb k 1) eqn:E.
  - apply Nat.eqb_eq in E. subst k. reflexivity.
  - apply nth_error_repeat. exact Hi.
Qed.

Lemma bitem_broadcast_to {A} (sh : shape) (a : ndarray A) (i : nat) :
  fits (shape_of a) sh -> (i < shape_size sh)%nat ->
  bitem (broadcast_to sh a) i = bitem a i.
Proof.
  destruct a as [x | xs]; simpl shape_of.
  - intros _ Hi. destruct sh as [k |]; [| reflexivity].
    cbn [broadcast_to]. rewrite bitem_repeat by exact Hi. reflexivity.
  - intros [H | [[H Hsh] | H]] Hi; [discriminate | |].
    + destruct xs as [| x [| ? ?]]; try discriminate.
      destruct sh as [k |]; [| exfalso; apply Hsh; reflexivity].
      cbn [broadcast_to]. rewrite bitem_repeat by exact Hi. reflexivity.
    + subst sh. change (Some (length xs)) with (shape_of (Arr1 xs)).
      rewrite broadcast_to_same. reflexivity.
Qed.

(** The shape of the result of a binary operation. *)
Lemma broadcast2_shape {A B C} (f : A -> B -> C) (a : ndarray A) (b : ndarray B) c :
  broadcast2 f a b = Ok c ->
  broadcast_shape (shape_of a) (shape_of b) = Some (shape_of c).
Proof.
  unfold broadcast2.
  destruct (broadcast_shape (shape_of a) (shape_of b)) as [sh |] eqn:E;
    [| discriminate].
  intros H. assert (Ec : c = zip_with f (broadcast_to sh a) (broadcast_to sh b))
    by congruence.
  destruct (broadcast_shape_fits _ _ _ E) as [Ha Hb].
  rewrite Ec, shape_of_zip_with; rewrite !shape_of_broadcast_to by assumption;
    reflexivity.
Qed.

Lemma broadcast2_ok {A B C} (f : A -> B -> C) (a : ndarray A) (b : ndarray B) sh :
  broadcast_shape (shape_of a) (shape_of b) = Some sh ->
  exists c, broadcast2 f a b = Ok c /\ shape_of c = sh.
Proof.
  intros E. unfold broadcast2. rewrite E. eexists. split; [reflexivity |].
  destruct (broadcast_shape_fits _ _ _ E) as [Ha Hb].
  rewrite shape_of_zip_with; rewrite !shape_of_broadcast_to by assumption;
    reflexivity.
Qed.

(** Operands that fit one shape, one of them having it, combine to that
    shape. *)
Lemma broadcast_shape_full_l (s t : shape) :
  fits t s -> s <> None \/ t = None -> broadcast_shape s t = Some s.
Proof.
  intros [-> | [[-> Hs] | ->]] Hnn.
  - destruct s; reflexivity.
  - destruct s as [m |]; [| exfalso; apply Hs; reflexivity]. simpl.
    destruct (Nat.eqb m 1) eqn:E; [| reflexivity].
    apply Nat.eqb_eq in E. subst m. reflexivity.
  - destruct s as [m |]; [| reflexivity]. simpl. rewrite Nat.eqb_refl. reflexivity.
Qed.

Lemma broadcast_shape_full_r (s t : shape) :
  fits s t -> t <> None \/ s = None -> broadcast_shape s t = Some t.
Proof.
  intros [-> | [[-> Ht] | ->]] Hnn.
  - reflexivity.
  - destruct t as [k |]; [| exfalso; apply Ht; reflexivity].
    cbn [broadcast_shape].
    destruct (Nat.eqb 1 k) eqn:E; [| reflexivity].
    apply Nat.eqb_eq in E. subst k. reflexivity.
  - destruct t as [m |]; [| reflexivity]. simpl. rewrite Nat.eqb_refl. reflexivity.
Qed.

Lemma broadcast2_ok_same {A B C} (f : A -> B -> C) (a : ndarray A) (b : ndarray B) sh :
  shape_of a = sh -> shape_of b = sh ->
  exists c, broadcast2 f a b = Ok c /\ shape_of c = sh.
Proof.
  intros Ha Hb. apply broadcast2_ok. rewrite Ha, Hb.
  destruct sh as [m |]; simpl; [rewrite Nat.eqb_refl |]; reflexivity.
Qed.

Lemma broadcast2_ok_scalar_l {A B C} (f : A -> B -> C) (x : A) (b : ndarray B) sh :
  shape_of b = sh ->
  exists c, broadcast2 f (Arr0 x) b = Ok c /\ shape_of c = sh.
Proof.
  intros Hb. apply broadcast2_ok. rewrite Hb. reflexivity.
Qed.

Lemma broadcast2_ok_scalar_r {A B C} (f : A -> B -> C) (a : ndarray A) (y : B) sh :
  shape_of a = sh ->
  exists c, broadcast2 f a (Arr0 y) = Ok c /\ shape_of c = sh.
Proof.
  intros Ha. apply broadcast2_ok. rewrite Ha. destruct sh; reflexivity.
Qed.

(** The common shape of a list of arrays is one that each of them fits. *)
Lemma common_shape_fold_fits {A} (l : list (ndarray A)) (s0 sh : shape) :
  fold_left
    (fun acc a =>
       match acc with
       | Some s => broadcast_shape s (shape_of a)
       | None => None
       end) l (Some s0) = Some sh ->
  fits s0 sh /\ Forall (fun a => fits (shape_of a) sh) l.
Proof.
  revert s0. induction l as [| a l IH]; simpl; intros s0 H.
  - injection H as <-. split; [apply fits_refl | constructor].
  - destruct (broadcast_shape s0 (shape_of a)) as [s1 |] eqn:E.
    + destruct (IH _ H) as [H1 Hl].
      destruct (broadcast_shape_fits _ _ _ E) as [H0 Ha].
      split; [eapply fits_trans; eassumption |].
      constructor; [eapply fits_trans; eassumption | exact Hl].
    + exfalso. clear -H. induction l as [| b l IHl]; simpl in H;
        [discriminate | auto].
Qed.

Lemma common_shape_fits {A} (l : list (ndarray A)) (sh : shape) :
  common_shape l = Some sh -> Forall (fun a => fits (shape_of a) sh) l.
Proof.
  intros H. apply (common_shape_fold_fits l None sh H).
Qed.

Lemma broadcast_arrays_Ok {A} (l : list (ndarray A)) (sh : shape) :
  common_shape l = Some sh ->
  broadcast_arrays l = Ok (map (broadcast_to sh) l).
Proof.
  intros H. unfold broadcast_arrays. rewrite H. reflexivity.
Qed.

Lemma broadcast_arrays_inv {A} (l l' : list (ndarray A)) :
  broadcast_arrays l = Ok l' ->
  exists sh, common_shape l = Some sh /\ l' = map (broadcast_to sh) l.
Proof.
  unfold broadcast_arrays.
  destruct (common_shape l) as [sh |]; [| discriminate].
  intros [= <-]. exists sh. split; reflexivity.
Qed.


(* ================================================================== *)
(** * Computations that only read the dictionary *)
(* ================================================================== *)

Lemma reads_ret {A} (a : A) s : reads (ret a) s (Ok a).
Proof. reflexivity. Qed.

Lemma reads_raise {A} (e : exn) s : reads (@raise A e) s (Raise e).
Proof. reflexivity. Qed.

Lemma reads_lift {A} (r : result A) s : reads (lift r) s r.
Proof. reflexivity. Qed.

Lemma reads_pure_array (a : array) s : reads (pure_array a) s (Ok a).
Proof. reflexivity. Qed.

Lemma reads_getitem key s :
  reads (getitem key) s
    (match field key with Some f => Ok (f s) | None => Raise KeyError end).
Proof. unfold reads, getitem. destruct (field key); reflexivity. Qed.

Lemma reads_bind {A B} (m : M A) (k : A -> M B) s r (K : A -> result B) :
  reads m s r ->
  (forall a, r = Ok a -> reads (k a) s (K a)) ->
  reads (bind m k) s (rbind r K).
Proof.
  unfold reads, bind. intros Hm Hk. rewrite Hm.
  destruct r as [a | e]; simpl; [apply Hk |]; reflexivity.
Qed.

Lemma reads_binop f (a b : M array) s ra rb :
  reads a s ra ->
  reads b s rb ->
  reads (binop f a b) s
    (rbind ra (fun x => rbind rb (fun y => broadcast2 f x y))).
Proof.
  intros Ha Hb. unfold binop.
  apply reads_bind; [exact Ha |]. intros x _.
  apply reads_bind; [exact Hb |]. intros y _.
  apply reads_lift.
Qed.

Lemma reads_unop f (a : M array) s ra :
  reads a s ra ->
  reads (unop f a) s (rbind ra (fun x => Ok (nd_map f x))).
Proof.
  intros Ha. unfold unop.
  apply reads_bind; [exact Ha |]. intros x _. apply reads_ret.
Qed.

Lemma reads_call2 {A B C} (f : A -> B -> M C) (a : M A) (b : M B) s ra rb
      (F : A -> B -> result C) :
  reads a s ra ->
  reads b s rb ->
  (forall x y, reads (f x y) s (F x y)) ->
  reads (call2 f a b) s (rbind ra (fun x => rbind rb (fun y => F x y))).
Proof.
  intros Ha Hb Hf. unfold call2.
  apply reads_bind; [exact Ha |]. intros x _.
  apply reads_bind; [exact Hb |]. intros y _. apply Hf.
Qed.

Lemma reads_call_with {A} (fresh : ModelParameters) (m : M A) s :
  reads (call_with fresh m) s (eval m fresh).
Proof. reflexivity. Qed.

Lemma reads_eval {A} (m : M A) s r : reads m s r -> eval m s = r.
Proof. unfold reads, eval. intros ->. reflexivity. Qed.

Lemma reads_exec {A} (m : M A) s r : reads m s r -> exec m s = s.
Proof. unfold reads, exec. intros ->. reflexivity. Qed.

Lemma reads_fun {A} (m : M A) s r r' : reads m s r -> reads m s r' -> r = r'.
Proof. unfold reads. intros H H'. congruence. Qed.

Lemma reads_get_scaled_thermal_voltage (N_s T_degC : array) s :
  reads (get_scaled_thermal_voltage N_s T_degC) s
    (scaled_thermal_voltage_value N_s T_degC).
Proof.
  unfold get_scaled_thermal_voltage, convert_temperature_Celsius_Kelvin.
  eapply eq_trans; [| reflexivity].
  unfold reads, binop, bind, pure_array, ret, lift, scaled_thermal_voltage_value.
  destruct (broadcast2 fadd T_degC (pyfloat zero_Celsius)) as [T_K | e]; [| reflexivity].
  cbn [rbind].
  destruct (broadcast2 fmul (pyfloat k_B_J_per_K) T_K) as [kT | e]; [| reflexivity].
  cbn [rbind].
  destruct (broadcast2 fdiv kT (pyfloat q_C)) as [V_th | e]; reflexivity.
Qed.

(** Building the value of a reading computation. *)
Ltac reads_step :=
  lazymatch goal with
  | |- reads (bind _ _) _ _ => eapply reads_bind; [| intros ? ?]
  | |- reads (binop _ _ _) _ _ => eapply reads_binop
  | |- reads (unop _ _) _ _ => eapply reads_unop
  | |- reads (numpy_exp _) _ _ => eapply reads_unop
  | |- reads (numpy_expm1 _) _ _ => eapply reads_unop
  | |- reads (numpy_log _) _ _ => eapply reads_unop
  | |- reads (square _) _ _ => eapply reads_unop
  | |- reads (call2 get_scaled_thermal_voltage _ _) _ _ =>
      eapply reads_call2;
      [| | intros ? ?; apply reads_get_scaled_thermal_voltage]
  | |- reads (get_scaled_thermal_voltage _ _) _ _ =>
      apply reads_get_scaled_thermal_voltage
  | |- reads (getitem _) _ _ => apply reads_getitem
  | |- reads (pure_array _) _ _ => apply reads_pure_array
  | |- reads (ret _) _ _ => apply reads_ret
  | |- reads (raise _) _ _ => apply reads_raise
  | |- reads (lift _) _ _ => apply reads_lift
  | |- reads (call_with _ _) _ _ => apply reads_call_with
  end.

Ltac reads_auto := repeat reads_step.

(** Inverting a value [Ok c] of nested [rbind]s. *)
Lemma rbind_Ok_inv {A B} (r : result A) (k : A -> result B) b :
  rbind r k = Ok b -> exists a, r = Ok a /\ k a = Ok b.
Proof.
  destruct r as [a | e]; simpl; [| discriminate].
  intros H. exists a. split; [reflexivity | exact H].
Qed.

Ltac rbind_inv :=
  repeat match goal with
    | H : rbind _ _ = Ok _ |- _ =>
        let v := fresh "v" in
        let Hv := fresh "Hv" in
        apply rbind_Ok_inv in H; destruct H as (v & Hv & H)
    | H : Ok _ = Ok _ |- _ => injection H as H; try subst
    | H : match field _ with _ => _ end = Ok _ |- _ => cbn in H
    end.

(** Reading the element at position [i] of every array that a chain of
    operations has produced. *)
Ltac pointwise_step i :=
  match goal with
  | H : broadcast2 ?f ?a ?b = Ok ?c |- _ =>
      let E := fresh "E" in
      pose proof (bitem_broadcast2 f a b c i H) as E;
      rewrite ?bitem_nd_map in E;
      repeat match goal with
        | Hk : bitem ?x i = Some _ |- _ => rewrite Hk in E
        end;
      cbn [olift2 option_map bitem pyfloat numpy_nan] in E;
      lazymatch type of E with
      | bitem _ _ = Some _ => clear H
      | bitem _ _ = None => clear H
      end
  end.

Ltac pointwise i := repeat pointwise_step i.

Open Scope R_scope.

Lemma q_C_pos : 0 < q_C.
Proof. unfold q_C. lra. Qed.

Lemma k_B_pos : 0 < k_B_J_per_K.
Proof. unfold k_B_J_per_K. lra. Qed.

Lemma scaled_thermal_voltage_at (N_s T_degC : array) v i (nr tr : R) :
  scaled_thermal_voltage_value N_s T_degC = Ok v ->
  bitem N_s i = Some (Fin nr) ->
  bitem T_degC i = Some (Fin tr) ->
  bitem v i = Some (Fin (nr * (k_B_J_per_K * (tr + zero_Celsius) / q_C))).
Proof.
  unfold scaled_thermal_voltage_value. intros H HN HT.
  rbind_inv. pointwise i.
  cbn [fadd fmul] in *.
  rewrite fdiv_fin in * by (pose proof q_C_pos; lra).
  cbn [fmul] in *. assumption.
Qed.

Lemma n_mod_at_pos (p : point) : valid_point p -> 0 < n_mod_at p.
Proof.
  intros (HN & HT & _ & _ & Hn & _). unfold n_mod_at.
  pose proof q_C_pos. pose proof k_B_pos.
  apply Rmult_lt_0_compat; [apply Rmult_lt_0_compat; assumption |].
  apply Rdiv_lt_0_compat; [| assumption].
  apply Rmult_lt_0_compat; [assumption | lra].
Qed.

Lemma fadd_fin (a b : R) : fadd (Fin a) (Fin b) = Fin (a + b).
Proof. reflexivity. Qed.

Lemma fsub_fin (a b : R) : fsub (Fin a) (Fin b) = Fin (a - b).
Proof. reflexivity. Qed.

Lemma fmul_fin (a b : R) : fmul (Fin a) (Fin b) = Fin (a * b).
Proof. reflexivity. Qed.

Lemma fneg_fin (a : R) : fneg (Fin a) = Fin (- a).
Proof. reflexivity. Qed.

Lemma fexp_fin (a : R) : fexp (Fin a) = Fin (exp a).
Proof. reflexivity. Qed.

Lemma fexpm1_fin (a : R) : fexpm1 (Fin a) = Fin (exp a - 1).
Proof. reflexivity. Qed.

Lemma fsquare_fin (a : R) : fsquare (Fin a) = Fin (a * a).
Proof. reflexivity. Qed.

(** Arithmetic on finite numbers, [nz] proving divisors different from zero. *)
Ltac fsimpl_with nz :=
  repeat first
    [ rewrite fadd_fin | rewrite fsub_fin | rewrite fmul_fin | rewrite fneg_fin
    | rewrite fexp_fin | rewrite fexpm1_fin | rewrite fsquare_fin
    | rewrite fdiv_fin by nz ].

(** The value of a computation that only reads, as hypothesis [Hr]. *)
Ltac reads_of m s Hr :=
  eassert (Hr : reads m s _) by reads_auto;
  cbn [field String.eqb Ascii.eqb Bool.eqb rbind] in Hr.

Lemma I_sum_pointwise iv s c s' i p I V :
  I_sum_diode_anode_at_I_V iv s = (Ok c, s') ->
  params_at s i p -> valid_point p ->
  bitem (I_A iv) i = Some (Fin I) ->
  bitem (V_V iv) i = Some (Fin V) ->
  bitem c i = Some (Fin (I_sum_spec p I V)).
Proof.
  intros H (HN & HT & Hph & Hrs & Hn & HR & HG) Hv HI HV.
  unfold I_sum_diode_anode_at_I_V in H.
  match type of H with ?m _ = _ => reads_of m s Hr end.
  red in Hr. rewrite Hr in H. injection H as H Hs.
  rbind_inv.
  match goal with H : scaled_thermal_voltage_value _ _ = Ok _ |- _ =>
    pose proof (scaled_thermal_voltage_at _ _ _ i _ _ H HN HT) end.
  pointwise i.
  pose proof (n_mod_at_pos p Hv) as Hpos. unfold n_mod_at in Hpos.
  match goal with E : bitem c i = _ |- _ => rewrite E end.
  fsimpl_with ltac:(lra).
  do 2 f_equal. unfold I_sum_spec, n_mod_at. cbv zeta.
  replace (p_n p * (p_N_s p * (k_B_J_per_K * (p_T_degC p + zero_Celsius) / q_C)))
    with (p_n p * p_N_s p * (k_B_J_per_K * (p_T_degC p + zero_Celsius) / q_C))
    by ring.
  reflexivity.
Qed.

(** Evaluating operations whose left operand is a scalar. *)
Ltac eval_scalars :=
  repeat (progress (rewrite ?broadcast2_Arr0_l; cbn [rbind nd_map])).

Lemma I_sum_scalar p I V :
  valid_point p ->
  I_sum_diode_anode_at_I_V
    {| I_A := pyfloat I; V_V := pyfloat V |} (scalar_parameters p)
  = (Ok (pyfloat (I_sum_spec p I V)), scalar_parameters p).
Proof.
  intros Hv.
  unfold I_sum_diode_anode_at_I_V.
  match goal with |- ?m ?s = _ => reads_of m s Hr end.
  red in Hr. rewrite Hr. f_equal.
  unfold scaled_thermal_voltage_value, scalar_parameters, pyfloat.
  cbn [I_A V_V N_s T_degC I_ph_A I_rs_A n R_s_Ohm G_p_S].
  eval_scalars.
  pose proof (n_mod_at_pos p Hv) as Hpos. unfold n_mod_at in Hpos.
  pose proof q_C_pos.
  fsimpl_with ltac:(lra).
  do 3 f_equal. unfold I_sum_spec, n_mod_at. cbv zeta.
  replace (p_n p * (p_N_s p * (k_B_J_per_K * (p_T_degC p + zero_Celsius) / q_C)))
    with (p_n p * p_N_s p * (k_B_J_per_K * (p_T_degC p + zero_Celsius) / q_C))
    by ring.
  reflexivity.
Qed.

(* ================================================================== *)
(** * Running a call *)
(* ================================================================== *)

Lemma bind_Ok {A B} (m : M A) (k : A -> M B) s a s1 :
  m s = (Ok a, s1) -> bind m k s = k a s1.
Proof. unfold bind. intros ->. reflexivity. Qed.


Lemma bind_Ok_inv {A B} (m : M A) (k : A -> M B) s b s' :
  bind m k s = (Ok b, s') ->
  exists a s1, m s = (Ok a, s1) /\ k a s1 = (Ok b, s').
Proof.
  unfold bind. destruct (m s) as [[a | e] s1]; [| discriminate].
  intros H. exists a, s1. split; [reflexivity | exact H].
Qed.

Lemma reads_inv {A} (m : M A) s r v s' :
  reads m s r -> m s = (Ok v, s') -> r = Ok v /\ s' = s.
Proof.
  unfold reads. intros -> H. injection H as -> ->. split; reflexivity.
Qed.

(** Replaying the operations of the hypotheses in the goal. *)
Ltac replay :=
  repeat (progress
            (repeat match goal with
               | H : _ = Ok _ |- _ => rewrite H
               end;
             cbn [rbind])).






Section Properties.

Variable NewtonOptions : Type.
Variable NewtonOptions_default : NewtonOptions.
Variable newton : newton_call NewtonOptions -> M newton_output.

(** ** C10 *)

(** C10.  The first derivative that [d2I_dV2_at_V] returns is the one that
    [dI_dV_at_V] returns on the same inputs: whenever [d2I_dV2_at_V] returns
    [(d2I_dV2_S, dI_dV_S, I_A)], [dI_dV_at_V] returns [(dI_dV_S, I_A)], and
    leaves the same dictionary. *)
Theorem d2I_dV2_at_V_first_derivative
    (V_V : array) (newton_options : option NewtonOptions) (s s' : ModelParameters)
    (d2I_dV2_S dI_dV_S I_A : array) :
  d2I_dV2_at_V NewtonOptions_default newton V_V newton_options s
  = (Ok (d2I_dV2_S, dI_dV_S, I_A), s') ->
  dI_dV_at_V NewtonOptions_default newton V_V newton_options s
  = (Ok (dI_dV_S, I_A), s').
Proof.
  intros H. unfold d2I_dV2_at_V in H.
  apply bind_Ok_inv in H. destruct H as (I0 & s1 & HI & H).
  match type of H with ?m _ = _ => reads_of m s1 Hr end.
  destruct (reads_inv _ _ _ _ _ Hr H) as [Hv ->]. clear Hr H.
  rbind_inv.
  unfold dI_dV_at_V. rewrite (bind_Ok _ _ _ _ _ HI).
  match goal with |- ?m ?st = _ => reads_of m st Hr end.
  red in Hr. rewrite Hr. clear Hr. f_equal.
  replay. reflexivity.
Qed.

(** ** C1 *)






(** ** C4 *)

(** The first and second derivatives of power that [P_mp] builds from
    [dI_dV_at_V] and [d2I_dV2_at_V]. *)
Lemma dP_dV_run o V_V s dI_dV_S I_A s1 :
  dI_dV_at_V NewtonOptions_default newton V_V (Some o) s = (Ok (dI_dV_S, I_A), s1) ->
  dP_dV NewtonOptions_default newton o V_V s
  = (rbind (broadcast2 fmul dI_dV_S V_V) (fun t => broadcast2 fadd t I_A), s1).
Proof.
  intros H. unfold dP_dV. rewrite (bind_Ok _ _ _ _ _ H).
  match goal with |- ?m ?st = _ => reads_of m st Hr end.
  exact Hr.
Qed.

Lemma d2P_dV2_run o V_V s d2I_dV2_S dI_dV_S I_A s1 :
  d2I_dV2_at_V NewtonOptions_default newton V_V (Some o) s
  = (Ok (d2I_dV2_S, dI_dV_S, I_A), s1) ->
  d2P_dV2 NewtonOptions_default newton o V_V s
  = (rbind (broadcast2 fmul d2I_dV2_S V_V)
       (fun t => rbind (broadcast2 fmul (pyfloat 2) dI_dV_S)
                   (fun u => broadcast2 fadd t u)), s1).
Proof.
  intros H. unfold d2P_dV2. rewrite (bind_Ok _ _ _ _ _ H).
  match goal with |- ?m ?st = _ => reads_of m st Hr end.
  exact Hr.
Qed.


(** ** C8 *)

(** The quotient [-1.0 / dI_dV_S]. *)
Lemma minus_one_over (dI_dV_S : array) s :
  reads (binop fdiv (unop fneg (pyfloat 1)) dI_dV_S) s
    (Ok (nd_map (fdiv (Fin (-1))) dI_dV_S)).
Proof.
  unfold reads, binop, unop, bind, pure_array, ret, lift, pyfloat.
  cbn [nd_map]. rewrite broadcast2_Arr0_l. rewrite fneg_fin. reflexivity.
Qed.

(** C8.  [R_at_sc] returns, element by element, [-1 / dI_dV_S] for the
    [dI_dV_S] that [dI_dV_at_V] returns at [V_V = 0], and [R_at_oc] returns
    [-1 / dI_dV_S] for the [dI_dV_S] that [dI_dV_at_V] returns at
    [V_V = V_oc_V], where [V_oc_V] is what [V_at_I] returns at [I_A = 0]. *)
Theorem R_at_sc_and_R_at_oc (newton_options : option NewtonOptions) :
  (forall s dI_dV_S I_sc_A s1,
      dI_dV_at_V NewtonOptions_default newton (pyfloat 0) newton_options s
      = (Ok (dI_dV_S, I_sc_A), s1) ->
      R_at_sc NewtonOptions_default newton newton_options s
      = (Ok (nd_map (fdiv (Fin (-1))) dI_dV_S, I_sc_A), s1))
  /\ (forall s V_oc_V s1 dI_dV_S I_A s2,
      V_at_I NewtonOptions_default newton (pyfloat 0) newton_options s
      = (Ok V_oc_V, s1) ->
      dI_dV_at_V NewtonOptions_default newton V_oc_V newton_options s1
      = (Ok (dI_dV_S, I_A), s2) ->
      R_at_oc NewtonOptions_default newton newton_options s
      = (Ok (nd_map (fdiv (Fin (-1))) dI_dV_S, V_oc_V), s2)).
Proof.
  split.
  - intros s dI_dV_S I_sc_A s1 H. unfold R_at_sc.
    rewrite (bind_Ok _ _ _ _ _ H).
    rewrite (bind_Ok _ _ _ _ _ (minus_one_over dI_dV_S s1)). reflexivity.
  - intros s V_oc_V s1 dI_dV_S I_A s2 HV H. unfold R_at_oc.
    rewrite (bind_Ok _ _ _ _ _ HV), (bind_Ok _ _ _ _ _ H).
    rewrite (bind_Ok _ _ _ _ _ (minus_one_over dI_dV_S s2)). reflexivity.
Qed.

End Properties.

(* ================================================================== *)
(** * The dictionary is left as it was *)
(* ================================================================== *)

Lemma preserves_ret {A} (a : A) : preserves (ret a).
Proof. intros s. reflexivity. Qed.

Lemma preserves_raise {A} (e : exn) : preserves (@raise A e).
Proof. intros s. reflexivity. Qed.

Lemma preserves_lift {A} (r : result A) : preserves (lift r).
Proof. intros s. reflexivity. Qed.

Lemma preserves_pure_array (a : array) : preserves (pure_array a).
Proof. intros s. reflexivity. Qed.

Lemma preserves_getitem (key : string) : preserves (getitem key).
Proof. intros s. unfold exec, getitem. destruct (field key); reflexivity. Qed.

Lemma preserves_call_with {A} (fresh : ModelParameters) (m : M A) :
  preserves (call_with fresh m).
Proof. intros s. reflexivity. Qed.

Lemma preserves_bind {A B} (m : M A) (k : A -> M B) :
  preserves m -> (forall a, preserves (k a)) -> preserves (bind m k).
Proof.
  intros Hm Hk s. unfold exec, bind.
  specialize (Hm s). unfold exec in Hm.
  destruct (m s) as [[a | e] s1]; simpl in Hm; subst s1.
  - apply Hk.
  - reflexivity.
Qed.

Lemma preserves_binop f (a b : M array) :
  preserves a -> preserves b -> preserves (binop f a b).
Proof.
  intros Ha Hb. unfold binop.
  apply preserves_bind; [exact Ha | intros x].
  apply preserves_bind; [exact Hb | intros y]. apply preserves_lift.
Qed.

Lemma preserves_unop f (a : M array) : preserves a -> preserves (unop f a).
Proof.
  intros Ha. unfold unop.
  apply preserves_bind; [exact Ha | intros x]. apply preserves_ret.
Qed.

Lemma preserves_call2 {A B C} (f : A -> B -> M C) (a : M A) (b : M B) :
  preserves a -> preserves b -> (forall x y, preserves (f x y)) ->
  preserves (call2 f a b).
Proof.
  intros Ha Hb Hf. unfold call2.
  apply preserves_bind; [exact Ha | intros x].
  apply preserves_bind; [exact Hb | intros y]. apply Hf.
Qed.

Lemma preserves_sequence {A} (l : list (M A)) :
  Forall preserves l -> preserves (sequence l).
Proof.
  induction 1 as [| m l Hm Hl IH]; simpl.
  - apply preserves_ret.
  - apply preserves_bind; [exact Hm | intros x].
    apply preserves_bind; [exact IH | intros xs]. apply preserves_ret.
Qed.

Ltac frame_step :=
  lazymatch goal with
  | |- preserves (bind _ _) => apply preserves_bind; [| intros ?]
  | |- preserves (binop _ _ _) => apply preserves_binop
  | |- preserves (unop _ _) => apply preserves_unop
  | |- preserves (numpy_exp _) => apply preserves_unop
  | |- preserves (numpy_expm1 _) => apply preserves_unop
  | |- preserves (numpy_log _) => apply preserves_unop
  | |- preserves (square _) => apply preserves_unop
  | |- preserves (call2 _ _ _) => apply preserves_call2; [| | intros ? ?]
  | |- preserves (getitem _) => apply preserves_getitem
  | |- preserves (pure_array _) => apply preserves_pure_array
  | |- preserves (ret _) => apply preserves_ret
  | |- preserves (raise _) => apply preserves_raise
  | |- preserves (lift _) => apply preserves_lift
  | |- preserves (call_with _ _) => apply preserves_call_with
  | |- preserves (sequence _) => apply preserves_sequence
  | |- preserves (numpy_broadcast_arrays _) => unfold numpy_broadcast_arrays
  | |- preserves (get_scaled_thermal_voltage _ _) =>
      unfold get_scaled_thermal_voltage, convert_temperature_Celsius_Kelvin
  | |- preserves (match ?p with pair _ _ => _ end) => destruct p
  | |- preserves (match ?l with nil => _ | cons _ _ => _ end) => destruct l
  | |- Forall preserves _ => constructor
  end.

Ltac frame := repeat frame_step.

Lemma preserves_I_sum_diode_anode_at_I_V (iv_data : IVData) :
  preserves (I_sum_diode_anode_at_I_V iv_data).
Proof. unfold I_sum_diode_anode_at_I_V. frame. Qed.

Section Frame.

Variable NewtonOptions : Type.
Variable NewtonOptions_default : NewtonOptions.
Variable newton : newton_call NewtonOptions -> M newton_output.
Hypothesis newton_preserves : solver_preserves newton.

Lemma preserves_I_at_V_newton_call V_V o :
  preserves (I_at_V_newton_call NewtonOptions_default V_V o).
Proof. unfold I_at_V_newton_call. frame. Qed.

Lemma preserves_V_at_I_newton_call I_A o :
  preserves (V_at_I_newton_call NewtonOptions_default I_A o).
Proof. unfold V_at_I_newton_call. frame. Qed.

Lemma I_at_V_newton_call_functions V_V o s call s1 :
  I_at_V_newton_call NewtonOptions_default V_V o s = (Ok call, s1) ->
  (forall x, preserves (func call x))
  /\ (forall f, fprime call = Some f -> forall x, preserves (f x))
  /\ (forall f, fprime2 call = Some f -> forall x, preserves (f x)).
Proof.
  unfold I_at_V_newton_call. intros H.
  apply bind_Ok_inv in H. destruct H as (l & s2 & _ & H).
  do 9 (destruct l as [| ? l]; try discriminate).
  apply bind_Ok_inv in H. destruct H as (n_mod & s3 & _ & H).
  apply bind_Ok_inv in H. destruct H as (ic & s4 & _ & H).
  injection H as <- _. cbn [func fprime fprime2].
  split; [| split].
  - intros x. frame.
  - intros f [= <-] x. frame.
  - intros f [= <-] x. frame.
Qed.

Lemma V_at_I_newton_call_functions I_A o s call s1 :
  V_at_I_newton_call NewtonOptions_default I_A o s = (Ok call, s1) ->
  (forall x, preserves (func call x))
  /\ (forall f, fprime call = Some f -> forall x, preserves (f x))
  /\ (forall f, fprime2 call = Some f -> forall x, preserves (f x)).
Proof.
  unfold V_at_I_newton_call. intros H.
  apply bind_Ok_inv in H. destruct H as (l & s2 & _ & H).
  do 9 (destruct l as [| ? l]; try discriminate).
  apply bind_Ok_inv in H. destruct H as (n_mod & s3 & _ & H).
  apply bind_Ok_inv in H. destruct H as (ic & s4 & _ & H).
  injection H as <- _. cbn [func fprime fprime2].
  split; [| split].
  - intros x. frame.
  - intros f [= <-] x. frame.
  - intros f [= <-] x. frame.
Qed.

Lemma preserves_I_at_V V_V o :
  preserves (I_at_V NewtonOptions_default newton V_V o).
Proof.
  intros s. unfold exec, I_at_V, bind.
  pose proof (preserves_I_at_V_newton_call V_V o s) as Hc. unfold exec in Hc.
  destruct (I_at_V_newton_call NewtonOptions_default V_V o s) as [[call | e] s1] eqn:E;
    simpl in Hc; subst s1; [| reflexivity].
  destruct (I_at_V_newton_call_functions _ _ _ _ _ E) as (H0 & H1 & H2).
  pose proof (newton_preserves call H0 H1 H2 s) as Hn. unfold exec in Hn.
  destruct (newton call s) as [[out | e] s2]; simpl in Hn; subst s2; reflexivity.
Qed.

Lemma preserves_V_at_I I_A o :
  preserves (V_at_I NewtonOptions_default newton I_A o).
Proof.
  intros s. unfold exec, V_at_I, bind.
  pose proof (preserves_V_at_I_newton_call I_A o s) as Hc. unfold exec in Hc.
  destruct (V_at_I_newton_call NewtonOptions_default I_A o s) as [[call | e] s1] eqn:E;
    simpl in Hc; subst s1; [| reflexivity].
  destruct (V_at_I_newton_call_functions _ _ _ _ _ E) as (H0 & H1 & H2).
  pose proof (newton_preserves call H0 H1 H2 s) as Hn. unfold exec in Hn.
  destruct (newton call s) as [[out | e] s2]; simpl in Hn; subst s2; reflexivity.
Qed.

Ltac frame_calls :=
  repeat first
    [ apply preserves_I_at_V
    | apply preserves_V_at_I
    | frame_step ].

Lemma preserves_dI_dV_at_V V_V o :
  preserves (dI_dV_at_V NewtonOptions_default newton V_V o).
Proof. unfold dI_dV_at_V. frame_calls. Qed.

Lemma preserves_d2I_dV2_at_V V_V o :
  preserves (d2I_dV2_at_V NewtonOptions_default newton V_V o).
Proof. unfold d2I_dV2_at_V. frame_calls. Qed.

Lemma preserves_dV_dI_at_I I_A o :
  preserves (dV_dI_at_I NewtonOptions_default newton I_A o).
Proof. unfold dV_dI_at_I. frame_calls. Qed.

Lemma preserves_P_at_V V_V o :
  preserves (P_at_V NewtonOptions_default newton V_V o).
Proof. unfold P_at_V. frame_calls. Qed.

Lemma preserves_dP_dV o V_V :
  preserves (dP_dV NewtonOptions_default newton o V_V).
Proof.
  unfold dP_dV. apply preserves_bind; [apply preserves_dI_dV_at_V |].
  intros [d I]. frame.
Qed.

Lemma preserves_d2P_dV2 o V_V :
  preserves (d2P_dV2 NewtonOptions_default newton o V_V).
Proof.
  unfold d2P_dV2. apply preserves_bind; [apply preserves_d2I_dV2_at_V |].
  intros [[d2 d] I]. frame.
Qed.

Lemma preserves_P_mp o :
  preserves (P_mp NewtonOptions_default newton o).
Proof.
  unfold P_mp.
  apply preserves_bind; [apply preserves_V_at_I | intros V_oc_V].
  apply preserves_bind; [frame | intros ic].
  apply preserves_bind.
  { apply newton_preserves; cbn [func fprime fprime2 P_mp_newton_call].
    - intros x. apply preserves_dP_dV.
    - intros f [= <-] x. apply preserves_d2P_dV2.
    - intros f Hf. discriminate. }
  intros out. frame_calls.
Qed.

Lemma preserves_FF o :
  preserves (FF NewtonOptions_default newton o).
Proof.
  unfold FF.
  apply preserves_bind; [apply preserves_I_at_V | intros I_sc_A].
  apply preserves_bind; [apply preserves_P_mp | intros [[[P I] V] Voc]].
  frame.
Qed.

Lemma preserves_R_at_sc o :
  preserves (R_at_sc NewtonOptions_default newton o).
Proof.
  unfold R_at_sc.
  apply preserves_bind; [apply preserves_dI_dV_at_V | intros [d I]]. frame.
Qed.

Lemma preserves_R_at_oc o :
  preserves (R_at_oc NewtonOptions_default newton o).
Proof.
  unfold R_at_oc.
  apply preserves_bind; [apply preserves_V_at_I | intros V_oc_V].
  apply preserves_bind; [apply preserves_dI_dV_at_V | intros [d I]]. frame.
Qed.

Lemma preserves_iv_curve_parameters o :
  preserves (iv_curve_parameters NewtonOptions_default newton o).
Proof.
  unfold iv_curve_parameters.
  apply preserves_bind; [apply preserves_FF | intros [[[[[F Isc] Imp] P] Vmp] Voc]].
  apply preserves_bind; [apply preserves_R_at_sc | intros [Rsc ?]].
  apply preserves_bind; [frame | intros V_x_V].
  apply preserves_bind; [apply preserves_I_at_V | intros I_x_A].
  apply preserves_bind; [frame | intros V_xx_V].
  apply preserves_bind; [apply preserves_I_at_V | intros I_xx_A].
  apply preserves_bind; [apply preserves_R_at_oc | intros [Roc ?]].
  apply preserves_ret.
Qed.

(** C9.  Every operation leaves the dictionary [model_parameters] as it
    received it, whatever it returns or raises, provided that the solver
    touches the dictionary only through the functions that it is given; and
    the outcome of an operation is determined by its inputs. *)
Theorem operations_leave_model_parameters_unchanged :
  (forall iv_data, preserves (I_sum_diode_anode_at_I_V iv_data))
  /\ (forall V_V o, preserves (I_at_V NewtonOptions_default newton V_V o))
  /\ (forall I_A o, preserves (V_at_I NewtonOptions_default newton I_A o))
  /\ (forall V_V o, preserves (dI_dV_at_V NewtonOptions_default newton V_V o))
  /\ (forall V_V o, preserves (d2I_dV2_at_V NewtonOptions_default newton V_V o))
  /\ (forall I_A o, preserves (dV_dI_at_I NewtonOptions_default newton I_A o))
  /\ (forall V_V o, preserves (P_at_V NewtonOptions_default newton V_V o))
  /\ (forall o, preserves (P_mp NewtonOptions_default newton o))
  /\ (forall o, preserves (FF NewtonOptions_default newton o))
  /\ (forall o, preserves (R_at_sc NewtonOptions_default newton o))
  /\ (forall o, preserves (R_at_oc NewtonOptions_default newton o))
  /\ (forall o, preserves (iv_curve_parameters NewtonOptions_default newton o))
  /\ (forall o o' s s',
         o = o' -> s = s' ->
         eval (iv_curve_parameters NewtonOptions_default newton o) s
         = eval (iv_curve_parameters NewtonOptions_default newton o') s').
Proof.
  repeat match goal with |- _ /\ _ => split end.
  - apply preserves_I_sum_diode_anode_at_I_V.
  - apply preserves_I_at_V.
  - apply preserves_V_at_I.
  - apply preserves_dI_dV_at_V.
  - apply preserves_d2I_dV2_at_V.
  - apply preserves_dV_dI_at_I.
  - apply preserves_P_at_V.
  - apply preserves_P_mp.
  - apply preserves_FF.
  - apply preserves_R_at_sc.
  - apply preserves_R_at_oc.
  - apply preserves_iv_curve_parameters.
  - intros o o' s s' -> ->. reflexivity.
Qed.

End Frame.

(* ================================================================== *)
(** * The calls of the solver that [I_at_V] and [V_at_I] make *)
(* ================================================================== *)

Lemma bind_reads {A B} (m : M A) (k : A -> M B) s r :
  reads m s r ->
  bind m k s = match r with Ok a => k a s | Raise e => (Raise e, s) end.
Proof. unfold reads, bind. intros ->. destruct r; reflexivity. Qed.

Lemma numpy_broadcast_arrays_inputs (X : array) s :
  reads
    (numpy_broadcast_arrays
       [ret X; getitem "N_s"; getitem "T_degC"; getitem "I_ph_A";
        getitem "I_rs_A"; getitem "n"; getitem "R_s_Ohm"; getitem "G_p_S"])
    s (broadcast_arrays (broadcast_inputs X s)).
Proof. reflexivity. Qed.

Lemma inputs_fit (X : array) s sh :
  common_shape (broadcast_inputs X s) = Some sh ->
  fits (shape_of X) sh
  /\ fits (shape_of (N_s s)) sh
  /\ fits (shape_of (T_degC s)) sh
  /\ fits (shape_of (I_ph_A s)) sh
  /\ fits (shape_of (I_rs_A s)) sh
  /\ fits (shape_of (n s)) sh
  /\ fits (shape_of (R_s_Ohm s)) sh
  /\ fits (shape_of (G_p_S s)) sh.
Proof.
  intros H. apply common_shape_fits in H. unfold broadcast_inputs in H.
  repeat match goal with
    | H : Forall _ (_ :: _) |- _ => inversion H; subst; clear H
    end.
  repeat split; assumption.
Qed.

(** The parameters and the input at position [i], after broadcasting. *)
Lemma inputs_at (X : array) s sh i p v :
  common_shape (broadcast_inputs X s) = Some sh ->
  (i < shape_size sh)%nat ->
  params_at s i p ->
  bitem X i = Some (Fin v) ->
  bitem (broadcast_to sh X) i = Some (Fin v)
  /\ bitem (broadcast_to sh (N_s s)) i = Some (Fin (p_N_s p))
  /\ bitem (broadcast_to sh (T_degC s)) i = Some (Fin (p_T_degC p))
  /\ bitem (broadcast_to sh (I_ph_A s)) i = Some (Fin (p_I_ph_A p))
  /\ bitem (broadcast_to sh (I_rs_A s)) i = Some (Fin (p_I_rs_A p))
  /\ bitem (broadcast_to sh (n s)) i = Some (Fin (p_n p))
  /\ bitem (broadcast_to sh (R_s_Ohm s)) i = Some (Fin (p_R_s_Ohm p))
  /\ bitem (broadcast_to sh (G_p_S s)) i = Some (Fin (p_G_p_S p)).
Proof.
  intros Hc Hi (HN & HT & Hph & Hrs & Hn & HR & HG) HX.
  destruct (inputs_fit X s sh Hc) as (F0 & F1 & F2 & F3 & F4 & F5 & F6 & F7).
  rewrite !bitem_broadcast_to by assumption.
  repeat split; assumption.
Qed.

Lemma inputs_shape (X : array) s sh :
  common_shape (broadcast_inputs X s) = Some sh ->
  shape_of (broadcast_to sh X) = sh
  /\ shape_of (broadcast_to sh (N_s s)) = sh
  /\ shape_of (broadcast_to sh (T_degC s)) = sh
  /\ shape_of (broadcast_to sh (I_ph_A s)) = sh
  /\ shape_of (broadcast_to sh (I_rs_A s)) = sh
  /\ shape_of (broadcast_to sh (n s)) = sh
  /\ shape_of (broadcast_to sh (R_s_Ohm s)) = sh
  /\ shape_of (broadcast_to sh (G_p_S s)) = sh.
Proof.
  intros Hc.
  destruct (inputs_fit X s sh Hc) as (F0 & F1 & F2 & F3 & F4 & F5 & F6 & F7).
  repeat split; apply shape_of_broadcast_to; assumption.
Qed.

(** Proving that an array has the shape [sh]. *)
Ltac shape_tac :=
  first [ assumption
        | rewrite shape_of_nd_map; shape_tac ].

(** Carrying out the next operation of the goal, on operands of shape
    [sh] or scalars. *)
Ltac bc_ok sh :=
  match goal with
  | |- context [broadcast2 ?f (Arr0 ?x) ?b] =>
      let c := fresh "c" in
      let Hc := fresh "Hc" in
      let Hs := fresh "Hs" in
      destruct (broadcast2_ok_scalar_l f x b sh) as (c & Hc & Hs);
      [solve [shape_tac] | rewrite Hc; cbn [rbind]]
  | |- context [broadcast2 ?f ?a (Arr0 ?y)] =>
      let c := fresh "c" in
      let Hc := fresh "Hc" in
      let Hs := fresh "Hs" in
      destruct (broadcast2_ok_scalar_r f a y sh) as (c & Hc & Hs);
      [solve [shape_tac] | rewrite Hc; cbn [rbind]]
  | |- context [broadcast2 ?f ?a ?b] =>
      let c := fresh "c" in
      let Hc := fresh "Hc" in
      let Hs := fresh "Hs" in
      destruct (broadcast2_ok_same f a b sh) as (c & Hc & Hs);
      [solve [shape_tac] | solve [shape_tac] | rewrite Hc; cbn [rbind]]
  end.

Lemma scaled_thermal_voltage_ok (N_s T_degC : array) sh :
  shape_of N_s = sh -> shape_of T_degC = sh ->
  exists v, scaled_thermal_voltage_value N_s T_degC = Ok v /\ shape_of v = sh.
Proof.
  intros HN HT. unfold scaled_thermal_voltage_value, pyfloat.
  repeat bc_ok sh. eexists. split; [reflexivity | assumption].
Qed.


Section Calls.

Variable NewtonOptions : Type.
Variable NewtonOptions_default : NewtonOptions.



End Calls.



Section ZeroSeriesResistance.

Variable NewtonOptions : Type.
Variable NewtonOptions_default : NewtonOptions.
Variable newton : newton_call NewtonOptions -> M newton_output.


End ZeroSeriesResistance.

(* ================================================================== *)
(** * The initial condition of [V_at_I] *)
(* ================================================================== *)

Lemma fsub_NInf_fin (a : R) : fsub NInf (Fin a) = NInf.
Proof. reflexivity. Qed.

Lemma fmul_fin_NInf (a : R) : 0 < a -> fmul (Fin a) NInf = NInf.
Proof.
  intros H. unfold fmul, inf_times. rewrite Rsign_pos by exact H. reflexivity.
Qed.

Section VoltageInitialCondition.

Variable NewtonOptions : Type.
Variable NewtonOptions_default : NewtonOptions.
Variable newton : newton_call NewtonOptions -> M newton_output.

(** The call of [newton] in [V_at_I] is made whenever the inputs broadcast
    together, whatever their values. *)
Lemma V_at_I_newton_call_ok (I_A : array) o s sh :
  common_shape (broadcast_inputs I_A s) = Some sh ->
  exists call,
    V_at_I_newton_call NewtonOptions_default I_A o s = (Ok call, s)
    /\ shape_of (x0 call) = sh
    /\ newton_method call = Halley.
Proof.
  intros Hc.
  destruct (inputs_shape I_A s sh Hc) as (S0 & S1 & S2 & S3 & S4 & S5 & S6 & S7).
  unfold V_at_I_newton_call.
  rewrite (bind_reads _ _ _ _ (numpy_broadcast_arrays_inputs I_A s)).
  rewrite (broadcast_arrays_Ok _ sh Hc). cbn [map broadcast_inputs]. cbv zeta.
  match goal with |- context [?m s = _] => reads_of m s Hr end.
  red in Hr. rewrite Hr. clear Hr.
  destruct (scaled_thermal_voltage_ok _ _ sh S1 S2) as (vt & Hvt & Hsvt).
  repeat (first [rewrite Hvt; cbn [rbind] | bc_ok sh]).
  eexists. split; [reflexivity |].
  cbn [x0 newton_method fprime fprime2].
  split; [shape_tac | reflexivity].
Qed.

(** The initial condition of [V_at_I], position by position: the explicit
    voltage for zero shunt conductance where the argument of the logarithm is
    positive, and [nan] or an infinity where it is not. *)
Lemma V_at_I_newton_call_x0 (I_A : array) o s call s1 :
  V_at_I_newton_call NewtonOptions_default I_A o s = (Ok call, s1) ->
  exists sh,
    common_shape (broadcast_inputs I_A s) = Some sh
    /\ s1 = s
    /\ forall i p Ir,
        (i < shape_size sh)%nat ->
        params_at s i p -> valid_point p ->
        bitem I_A i = Some (Fin Ir) ->
        (0 < log_argument p Ir ->
         bitem (x0 call) i
         = Some (Fin (n_mod_at p * (ln (log_argument p Ir) - ln (p_I_rs_A p))
                      - Ir * p_R_s_Ohm p)))
        /\ (log_argument p Ir < 0 -> bitem (x0 call) i = Some NaN)
        /\ (log_argument p Ir = 0 -> bitem (x0 call) i = Some NInf).
Proof.
  unfold V_at_I_newton_call.
  rewrite (bind_reads _ _ _ _ (numpy_broadcast_arrays_inputs I_A s)).
  destruct (broadcast_arrays (broadcast_inputs I_A s)) as [l | e] eqn:El;
    [| discriminate].
  destruct (broadcast_arrays_inv _ _ El) as (sh & Hc & ->).
  cbn [map broadcast_inputs]. cbv zeta. intros H.
  match type of H with ?m s = _ => reads_of m s Hr end.
  destruct (reads_inv _ _ _ _ _ Hr H) as [Hv ->]. clear Hr H.
  exists sh. split; [exact Hc |]. split; [reflexivity |].
  intros i p Ir Hi Hp Hvalid HI.
  destruct (inputs_at I_A s sh i p Ir Hc Hi Hp HI)
    as (B0 & B1 & B2 & B3 & B4 & B5 & B6 & B7).
  rbind_inv. cbn [x0].
  match goal with H : scaled_thermal_voltage_value _ _ = Ok _ |- _ =>
    pose proof (scaled_thermal_voltage_at _ _ _ i _ _ H B1 B2) end.
  pointwise i.
  pose proof (n_mod_at_pos p Hvalid) as Hpos.
  assert (Hrs : 0 < p_I_rs_A p) by (destruct Hvalid as (_ & _ & _ & Hgoal & _); exact Hgoal).
  assert (En : p_n p * (p_N_s p * (k_B_J_per_K * (p_T_degC p + zero_Celsius) / q_C))
               = n_mod_at p) by (unfold n_mod_at; ring).
  match goal with E : bitem ?c i = _ |- _ /\ _ => rewrite E end.
  rewrite (fmul_fin (p_n p)), En, fadd_fin, fsub_fin, (fmul_fin Ir).
  fold (log_argument p Ir). rewrite (flog_pos (p_I_rs_A p)) by exact Hrs.
  split; [| split]; intros Hlog.
  - rewrite flog_pos by exact Hlog. fsimpl_with ltac:(lra). reflexivity.
  - rewrite flog_neg by exact Hlog. reflexivity.
  - rewrite Hlog, flog_zero, fsub_NInf_fin.
    rewrite fmul_fin_NInf by exact Hpos. reflexivity.
Qed.

(** C2, as the code has it.  Where [I_ph_A + I_rs_A - I_A <= 0], [V_at_I]
    raises nothing before the solver: the logarithm gives [nan] (for a
    negative argument) or [-inf] (for zero), the initial condition is [nan]
    or [-inf] there, the call of [newton] is made with it, and the outcome of
    [V_at_I] is the outcome of that call followed by the convergence
    check. *)
Theorem V_at_I_outside_domain
    (I_A : array) (o : option NewtonOptions) (s : ModelParameters) (sh : shape) :
  common_shape (broadcast_inputs I_A s) = Some sh ->
  exists call,
    V_at_I_newton_call NewtonOptions_default I_A o s = (Ok call, s)
    /\ V_at_I NewtonOptions_default newton I_A o s
       = bind (newton call)
           (fun newton_result =>
              lift (verify_convergence (x0 call)
                      (newton_result_0 newton_result)
                      (newton_result_1 newton_result))) s
    /\ forall i p Ir,
        (i < shape_size sh)%nat ->
        params_at s i p -> valid_point p ->
        bitem I_A i = Some (Fin Ir) ->
        log_argument p Ir <= 0 ->
        exists y, bitem (x0 call) i = Some y
                  /\ is_finite y = false
                  /\ (log_argument p Ir < 0 -> y = NaN)
                  /\ (log_argument p Ir = 0 -> y = NInf).
Proof.
  intros Hc.
  destruct (V_at_I_newton_call_ok I_A o s sh Hc) as (call & Hcall & _ & _).
  exists call. split; [exact Hcall |]. split.
  { unfold V_at_I. rewrite (bind_Ok _ _ _ _ _ Hcall). reflexivity. }
  destruct (V_at_I_newton_call_x0 I_A o s call s Hcall) as (sh' & Hc' & _ & Hx0).
  assert (sh' = sh) by congruence. subst sh'.
  intros i p Ir Hi Hp Hvalid HI Hle.
  destruct (Hx0 i p Ir Hi Hp Hvalid HI) as (_ & Hneg & Hzero).
  destruct (Rle_lt_or_eq_dec _ _ Hle) as [Hlt | Heq].
  - exists NaN. split; [exact (Hneg Hlt) |]. split; [reflexivity |].
    split; [reflexivity | intros H; lra].
  - exists NInf. split; [exact (Hzero Heq) |]. split; [reflexivity |].
    split; [intros H; lra | reflexivity].
Qed.

End VoltageInitialCondition.

(* ================================================================== *)
(** * The fill factor *)
(* ================================================================== *)

Section FillFactor.

Variable NewtonOptions : Type.
Variable NewtonOptions_default : NewtonOptions.
Variable newton : newton_call NewtonOptions -> M newton_output.

(** C5.  Once [I_at_V] at [V_V = 0] and [P_mp] have returned arrays whose
    shapes combine (the two hypotheses on [broadcast2] say no more), [FF]
    returns whatever the values of the denominator [I_sc_A * V_oc_V]; its
    first result has, at each position, [nan] where the denominator is
    exactly zero and the quotient [P_mp_W / (I_sc_A * V_oc_V)] elsewhere. *)
Theorem FF_elementwise
    (o : option NewtonOptions) (s s1 s2 : ModelParameters)
    (I_sc_A P_mp_W I_mp_A V_mp_V V_oc_V denominator quotient : array) :
  I_at_V NewtonOptions_default newton (pyfloat 0) o s = (Ok I_sc_A, s1) ->
  P_mp NewtonOptions_default newton o s1
  = (Ok (P_mp_W, I_mp_A, V_mp_V, V_oc_V), s2) ->
  broadcast2 fmul I_sc_A V_oc_V = Ok denominator ->
  broadcast2 fdiv P_mp_W denominator = Ok quotient ->
  exists FF_,
    FF NewtonOptions_default newton o s
    = (Ok (FF_, I_sc_A, I_mp_A, P_mp_W, V_mp_V, V_oc_V), s2)
    /\ shape_of FF_ = shape_of quotient
    /\ forall i d pw,
        bitem denominator i = Some d ->
        bitem P_mp_W i = Some pw ->
        (d = Fin 0 -> bitem FF_ i = Some NaN)
        /\ (d <> Fin 0 -> bitem FF_ i = Some (fdiv pw d)).
Proof.
  intros HI HP Hden Hq.
  pose proof (broadcast2_shape _ _ _ _ Hq) as Hsq.
  destruct (broadcast_shape_fits _ _ _ Hsq) as [_ Hfit].
  assert (Hbs : broadcast_shape (shape_of (nd_map fnonzero denominator))
                  (shape_of quotient) = Some (shape_of quotient)).
  { rewrite shape_of_nd_map. apply broadcast_shape_full_r; [exact Hfit |].
    destruct (shape_of quotient) as [k |]; [left; discriminate | right].
    destruct Hfit as [H | [[_ H] | H]]; try assumption.
    exfalso. apply H. reflexivity. }
  destruct (broadcast2_ok (@pair bool float) (nd_map fnonzero denominator)
              quotient _ Hbs) as (cx & Hcx & Hscx).
  exists (nd_map (fun p : bool * float => if fst p then snd p else NaN) cx).
  split; [| split].
  - unfold FF. rewrite (bind_Ok _ _ _ _ _ HI), (bind_Ok _ _ _ _ _ HP).
    match goal with |- ?m ?st = _ => reads_of m st Hr end.
    red in Hr. rewrite Hr. clear Hr. f_equal.
    rewrite Hden. cbn [rbind]. rewrite Hq. cbn [rbind].
    unfold numpy_where, numpy_nan. rewrite Hcx. cbn [rbind].
    rewrite broadcast2_Arr0_r. reflexivity.
  - rewrite shape_of_nd_map. exact Hscx.
  - intros i d pw Hd Hpw.
    rewrite bitem_nd_map, (bitem_broadcast2 _ _ _ _ i Hcx).
    rewrite bitem_nd_map, (bitem_broadcast2 _ _ _ _ i Hq), Hd, Hpw.
    cbn [option_map olift2 fst snd].
    split; intros Hz.
    + destruct (fnonzero_false d) as [_ H]. rewrite (H Hz). reflexivity.
    + destruct (fnonzero_true d) as [_ H]. rewrite (H Hz). reflexivity.
Qed.

End FillFactor.

(* ================================================================== *)
(** * The residual: C3 *)
(* ================================================================== *)

(** C3.  At a point [(I, V)] and valid parameters,
    [I_sum_diode_anode_at_I_V] returns
    [I_ph - I_rs*(exp(V_diode/n_mod) - 1) - G_p*V_diode - I] with
    [V_diode = V + I*R_s] and [n_mod = n * N_s * (k_B * T_K / q)],
    [T_K = T_degC + 273.15], [q = 1.602176634e-19] and
    [k_B = 1.380649e-23]; and on arrays, whenever it returns, its result
    holds that number at every position where the inputs are finite and the
    parameters valid. *)
Theorem I_sum_diode_anode_at_I_V_formula (p : point) (I V : R) :
  valid_point p ->
  I_sum_diode_anode_at_I_V
    {| I_A := pyfloat I; V_V := pyfloat V |} (scalar_parameters p)
  = (Ok (pyfloat (I_sum_spec p I V)), scalar_parameters p)
  /\ (forall iv_data s c s' i,
         I_sum_diode_anode_at_I_V iv_data s = (Ok c, s') ->
         params_at s i p ->
         bitem (I_A iv_data) i = Some (Fin I) ->
         bitem (V_V iv_data) i = Some (Fin V) ->
         bitem c i = Some (Fin (I_sum_spec p I V)))
  /\ I_sum_spec p I V
     = p_I_ph_A p
       - p_I_rs_A p
         * (exp ((V + I * p_R_s_Ohm p)
                 / (p_n p * p_N_s p
                    * (1.380649e-23 * (p_T_degC p + 273.15) / 1.602176634e-19)))
            - 1)
       - p_G_p_S p * (V + I * p_R_s_Ohm p)
       - I.
Proof.
  intros Hv. split; [| split].
  - apply I_sum_scalar. exact Hv.
  - intros iv_data s c s' i H Hp HI HV.
    exact (I_sum_pointwise iv_data s c s' i p I V H Hp Hv HI HV).
  - reflexivity.
Qed.

(* ================================================================== *)
(** * Examples *)
(* ================================================================== *)

(** In the examples the arithmetic of the numbers is carried out by the
    lemmas above, not by unfolding. *)
Arguments fadd : simpl never.
Arguments fsub : simpl never.
Arguments fmul : simpl never.
Arguments fdiv : simpl never.
Arguments fneg : simpl never.
Arguments fexp : simpl never.
Arguments fexpm1 : simpl never.
Arguments flog : simpl never.
Arguments fsquare : simpl never.
Arguments fnonzero : simpl never.
Arguments fequal_True : simpl never.

Lemma valid_example_point : valid_point example_point.
Proof.
  unfold valid_point, example_point, zero_Celsius. cbn. lra.
Defined.


Lemma params_at_scalar_parameters (p : point) (i : nat) :
  params_at (scalar_parameters p) i p.
Proof.
  unfold params_at. repeat split; reflexivity.
Defined.


Lemma newton_accept_preserves {O} : solver_preserves (@newton_accept O).
Proof.
  intros c _ _ _ s. reflexivity.
Defined.

(** The residual at the example scenario. *)
Lemma I_sum_diode_anode_at_I_V_formula_witness :
  I_sum_diode_anode_at_I_V
    {| I_A := pyfloat 5; V_V := pyfloat 0.6 |} example_parameters
  = (Ok (pyfloat (I_sum_spec example_point 5 0.6)), example_parameters).
Proof.
  exact (proj1 (I_sum_diode_anode_at_I_V_formula example_point 5 0.6
                  valid_example_point)).
Defined.


(** C2 fails: at the example scenario with [I_A = 7], where
    [I_ph_A + I_rs_A - I_A < 0], [V_at_I] raises nothing of its own; it calls
    the solver with the initial condition [nan], and with a solver that
    accepts its initial guess it returns [nan]. *)
Lemma V_at_I_raises_no_domain_error :
  log_argument example_point 7 <= 0
  /\ (exists call,
         V_at_I_newton_call tt (pyfloat 7) None example_parameters
         = (Ok call, example_parameters)
         /\ x0 call = numpy_nan)
  /\ V_at_I tt newton_accept (pyfloat 7) None example_parameters
     = (Ok numpy_nan, example_parameters).
Proof.
  split; [| split].
  - unfold log_argument, example_point. cbn. lra.
  - eexists. split; [cbn; reflexivity |].
    cbn. unfold numpy_nan. f_equal. rewrite !fadd_fin, !fsub_fin.
    match goal with
    | |- context [flog (Fin (?a + ?b - ?c))] =>
        rewrite (flog_neg (a + b - c)) by lra
    end.
    rewrite fsub_NaN_l, fmul_NaN_r, fsub_NaN_l. reflexivity.
  - cbn. unfold lift, numpy_nan. do 3 f_equal. rewrite !fadd_fin, !fsub_fin.
    match goal with
    | |- context [flog (Fin (?a + ?b - ?c))] =>
        rewrite (flog_neg (a + b - c)) by lra
    end.
    rewrite fsub_NaN_l, fmul_NaN_r, fsub_NaN_l. reflexivity.
Qed.

(** The outcome of [V_at_I] outside the domain of the logarithm, at the
    example scenario with [I_A = 7]. *)
Lemma V_at_I_outside_domain_witness :
  exists call,
    V_at_I_newton_call tt (pyfloat 7) None example_parameters
    = (Ok call, example_parameters)
    /\ bitem (x0 call) 0 = Some NaN.
Proof.
  destruct (V_at_I_outside_domain unit tt newton_accept (pyfloat 7) None
              example_parameters None eq_refl) as (call & Hcall & _ & Hx0).
  exists call. split; [exact Hcall |].
  destruct (Hx0 0%nat example_point 7) as (y & Hy & _ & Hnan & _).
  - cbn. lia.
  - apply params_at_scalar_parameters.
  - exact valid_example_point.
  - reflexivity.
  - unfold log_argument, example_point. cbn. lra.
  - rewrite Hy. f_equal. apply Hnan.
    unfold log_argument, example_point. cbn. lra.
Defined.



(** [R_at_sc] and [R_at_oc] at the example scenario. *)
Lemma R_at_sc_and_R_at_oc_witness :
  exists R_sc_Ohm I_sc_A s1,
    R_at_sc tt newton_accept None example_parameters
    = (Ok (R_sc_Ohm, I_sc_A), s1).
Proof.
  destruct (R_at_sc_and_R_at_oc unit tt newton_accept None) as (H & _).
  eexists. eexists. eexists. eapply H. cbn. reflexivity.
Defined.

(** The dictionary after [iv_curve_parameters] at the example scenario. *)
Lemma operations_leave_model_parameters_unchanged_witness :
  exec (iv_curve_parameters tt newton_accept None) example_parameters
  = example_parameters.
Proof.
  destruct (operations_leave_model_parameters_unchanged unit tt newton_accept
              newton_accept_preserves)
    as (_ & _ & _ & _ & _ & _ & _ & _ & _ & _ & _ & H & _).
  apply H.
Defined.

(** The two first derivatives at the example scenario. *)
Lemma d2I_dV2_at_V_first_derivative_witness :
  exists dI_dV_S I_A s',
    dI_dV_at_V tt newton_accept (pyfloat 0.6) None example_parameters
    = (Ok (dI_dV_S, I_A), s').
Proof.
  eexists. eexists. eexists.
  eapply (d2I_dV2_at_V_first_derivative unit tt newton_accept).
  cbn. reflexivity.
Defined.


(** The fill factor of the degenerate state, for a solver that accepts its
    initial guesses: the short-circuit current is zero, so is the
    denominator, and [FF] returns the [nan] sentinel. *)
Lemma FF_elementwise_witness :
  exists FF_ I_sc_A I_mp_A P_mp_W V_mp_V V_oc_V s2,
    FF tt newton_accept None (scalar_parameters degenerate_point)
    = (Ok (FF_, I_sc_A, I_mp_A, P_mp_W, V_mp_V, V_oc_V), s2)
    /\ bitem FF_ 0 = Some NaN.
Proof.
  edestruct (FF_elementwise unit tt newton_accept None
               (scalar_parameters degenerate_point))
    as (FF_ & HFF & _ & Hel).
  - cbn. reflexivity.
  - cbn. reflexivity.
  - cbn. reflexivity.
  - cbn. reflexivity.
  - do 7 eexists. split; [exact HFF |].
    edestruct (Hel 0%nat) as [Hzero _]; [reflexivity | reflexivity |].
    apply Hzero.
    assert (Hq : q_C <> 0) by (unfold q_C; lra).
    assert (Hn : 1 * (1 * (k_B_J_per_K * (25 + zero_Celsius) / q_C)) <> 0)
      by (unfold q_C, k_B_J_per_K, zero_Celsius; lra).
    repeat first
      [ rewrite fadd_fin | rewrite fsub_fin | rewrite fmul_fin
      | rewrite fexpm1_fin
      | rewrite (fdiv_fin _ q_C) by exact Hq
      | rewrite fdiv_fin by exact Hn
      | rewrite flog_pos by lra ].
    f_equal.
    replace (0 / (1 * (1 * (k_B_J_per_K * (25 + zero_Celsius) / q_C))))
      with 0 by (unfold Rdiv; ring).
    rewrite exp_0. ring.
Defined.
